(** * flow: an HTTP request router (route tree, matcher, dispatch pipeline)

    Shallow embedding of [flow.go].  Go strings are byte strings and are
    modelled by [string]; Go maps by stdpp's [gmap]; the pointer-linked
    route tree by a nested inductive type that registration rebuilds along
    the path it walks; panics by [None].  An [http.Handler] is a value of
    an arbitrary type [H], and a decorator a function from [H] to [H]. *)

From Stdlib Require Import Ascii String.
From stdpp Require Import base option list strings gmap fin_maps.

Local Open Scope string_scope.

(** ** The case tables of Unicode

    On text with a byte outside ASCII, [strings.ToUpper] returns
    [strings.Map(unicode.ToUpper, s)].  The tables behind [unicode.ToUpper]
    are not part of this development: that result is a parameter. *)
Class UnicodeTables := {
  Map_unicode_ToUpper : string → string;
}.

(** ** The functions of Go's [strings] package that the router calls.

    The separators and cut sets the router passes are the one-byte strings
    ["/"], ["|"] and [":"]; they are taken as an [ascii] here. *)
Module strings.

Fixpoint TrimLeft (s : string) (cut : ascii) : string :=
  match s with
  | String c s' => if Ascii.eqb c cut then TrimLeft s' cut else s
  | EmptyString => EmptyString
  end.

Fixpoint TrimRight (s : string) (cut : ascii) : string :=
  match s with
  | String c s' =>
      match TrimRight s' cut with
      | EmptyString => if Ascii.eqb c cut then EmptyString else String c EmptyString
      | t => String c t
      end
  | EmptyString => EmptyString
  end.

(** [strings.Trim(s, cutset)] for a one-byte cut set. *)
Definition Trim (s : string) (cut : ascii) : string :=
  TrimRight (TrimLeft s cut) cut.

(** [strings.Split(s, sep)]: always at least one piece. *)
Fixpoint Split (s : string) (sep : ascii) : list string :=
  match s with
  | EmptyString => [EmptyString]
  | String c s' =>
      if Ascii.eqb c sep then EmptyString :: Split s' sep
      else match Split s' sep with
           | x :: xs => String c x :: xs
           | [] => [String c EmptyString]
           end
  end.

(** [strings.Join(elems, sep)]. *)
Fixpoint Join (elems : list string) (sep : string) : string :=
  match elems with
  | [] => EmptyString
  | [x] => x
  | x :: xs => x ++ sep ++ Join xs sep
  end.

(** [strings.HasPrefix(s, prefix)] and [strings.TrimPrefix(s, prefix)]
    for a one-byte prefix. *)
Definition HasPrefix (s : string) (p : ascii) : bool :=
  match s with
  | String c _ => Ascii.eqb c p
  | EmptyString => false
  end.

Definition TrimPrefix (s : string) (p : ascii) : string :=
  match s with
  | String c s' => if Ascii.eqb c p then s' else s
  | EmptyString => s
  end.

(** [strings.Cut(s, sep)]: text before and after the first [sep], and
    whether [sep] was found; the whole of [s], the empty string and [false] when it was not. *)
Fixpoint Cut (s : string) (sep : ascii) : string * string * bool :=
  match s with
  | EmptyString => (EmptyString, EmptyString, false)
  | String c s' =>
      if Ascii.eqb c sep then (EmptyString, s', true)
      else let '(before, after, found) := Cut s' sep in
           (String c before, after, found)
  end.

Definition upper_byte (c : ascii) : ascii :=
  let n := nat_of_ascii c in
  if (97 <=? n)%nat && (n <=? 122)%nat then ascii_of_nat (n - 32) else c.

(** The loop of [strings.ToUpper] over text that is all ASCII. *)
Fixpoint upper_bytes (s : string) : string :=
  match s with
  | EmptyString => EmptyString
  | String c s' => String (upper_byte c) (upper_bytes s')
  end.

Fixpoint isASCII (s : string) : bool :=
  match s with
  | EmptyString => true
  | String c s' => (nat_of_ascii c <? 128)%nat && isASCII s'
  end.

Fixpoint hasLower (s : string) : bool :=
  match s with
  | EmptyString => false
  | String c s' =>
      let n := nat_of_ascii c in
      ((97 <=? n)%nat && (n <=? 122)%nat) || hasLower s'
  end.

(** [strings.ToUpper]: text that is all ASCII is returned as it is when it
    has no lower-case letter and goes through the byte loop otherwise; any
    other text is mapped rune by rune with [unicode.ToUpper]. *)
Definition ToUpper `{UnicodeTables} (s : string) : string :=
  if isASCII s then
    if hasLower s then upper_bytes s else s
  else Map_unicode_ToUpper s.

End strings.

(** ** The part of Go's [regexp] package the router relies on.

    [MustCompile] panics on an invalid pattern ([None]); [MatchString]
    reports whether the text contains any match of the pattern. *)
Class RegexpEngine (Regexp : Type) := {
  MustCompile : string → option Regexp;
  MatchString : Regexp → string → bool;
}.

(** A small engine for the examples: literals, [.], [^], [$], bracket
    classes with ranges, groups, alternation and the repetitions [*], [+],
    [?], [{n}], [{n,}] and [{n,m}].  A pattern outside this fragment is
    treated as one that does not compile. *)
Module regexp.

Inductive re : Type :=
| Eps
| Lit (c : ascii)
| AnyChar
| Class (negated : bool) (ranges : list (ascii * ascii))
| Bol
| Eol
| Cat (a b : re)
| Alt (a b : re)
| Star (a : re).

Fixpoint power (a : re) (n : nat) : re :=
  match n with
  | 0 => Eps
  | S n' => Cat a (power a n')
  end.

Fixpoint upto (a : re) (n : nat) : re :=
  match n with
  | 0 => Eps
  | S n' => Alt Eps (Cat a (upto a n'))
  end.

Definition is_digit (c : ascii) : bool :=
  let n := nat_of_ascii c in (48 <=? n)%nat && (n <=? 57)%nat.

Fixpoint number (acc : nat) (s : string) : nat * string :=
  match s with
  | String c s' =>
      if is_digit c then number (10 * acc + (nat_of_ascii c - 48)) s' else (acc, s)
  | EmptyString => (acc, s)
  end.

(** The text after an opening brace: [n}], [n,}] or [n,m}]. *)
Definition braces (a : re) (s : string) : option (re * string) :=
  match s with
  | String c _ =>
      if is_digit c then
        let '(n, s1) := number 0 s in
        match s1 with
        | String "}" s2 => Some (power a n, s2)
        | String "," (String "}" s2) => Some (Cat (power a n) (Star a), s2)
        | String "," (String d s2) =>
            if is_digit d then
              let '(m, s3) := number 0 (String d s2) in
              match s3 with
              | String "}" s4 =>
                  if (n <=? m)%nat then Some (Cat (power a n) (upto a (m - n)), s4)
                  else None
              | _ => None
              end
            else None
        | _ => None
        end
      else None
  | EmptyString => None
  end.

(** The items of a bracket class, up to the closing bracket. *)
Fixpoint class_items (first : bool) (s : string) : option (list (ascii * ascii) * string) :=
  match s with
  | EmptyString => None
  | String c s1 =>
      if Ascii.eqb c "]" && negb first then Some ([], s1)
      else
        match s1 with
        | String "-" (String hi s2) =>
            if Ascii.eqb hi "]" then
              '(rs, s3) ← class_items false s1; Some ((c, c) :: rs, s3)
            else
              '(rs, s3) ← class_items false s2; Some ((c, hi) :: rs, s3)
        | _ => '(rs, s3) ← class_items false s1; Some ((c, c) :: rs, s3)
        end
  end.

Fixpoint postfix (fuel : nat) (a : re) (s : string) : re * string :=
  match fuel with
  | 0 => (a, s)
  | S fuel' =>
      match s with
      | String "*" s1 => postfix fuel' (Star a) s1
      | String "+" s1 => postfix fuel' (Cat a (Star a)) s1
      | String "?" s1 => postfix fuel' (Alt a Eps) s1
      | String "{" s1 =>
          match braces a s1 with
          | Some (a', s2) => postfix fuel' a' s2
          | None => (a, s)
          end
      | _ => (a, s)
      end
  end.

Fixpoint alternation (fuel : nat) (s : string) : option (re * string) :=
  match fuel with
  | 0 => None
  | S fuel' =>
      '(a, s1) ← sequence fuel' s;
      match s1 with
      | String "|" s2 => '(b, s3) ← alternation fuel' s2; Some (Alt a b, s3)
      | _ => Some (a, s1)
      end
  end
with sequence (fuel : nat) (s : string) : option (re * string) :=
  match fuel with
  | 0 => None
  | S fuel' =>
      match s with
      | EmptyString | String "|" _ | String ")" _ => Some (Eps, s)
      | _ =>
          '(a, s1) ← atom fuel' s;
          let '(a, s2) := postfix (String.length s1) a s1 in
          '(b, s3) ← sequence fuel' s2;
          Some (Cat a b, s3)
      end
  end
with atom (fuel : nat) (s : string) : option (re * string) :=
  match fuel with
  | 0 => None
  | S fuel' =>
      match s with
      | EmptyString => None
      | String "(" s1 =>
          '(a, s2) ← alternation fuel' s1;
          match s2 with
          | String ")" s3 => Some (a, s3)
          | _ => None
          end
      | String "[" (String "^" s1) =>
          '(rs, s2) ← class_items true s1; Some (Class true rs, s2)
      | String "[" s1 =>
          '(rs, s2) ← class_items true s1; Some (Class false rs, s2)
      | String "." s1 => Some (AnyChar, s1)
      | String "^" s1 => Some (Bol, s1)
      | String "$" s1 => Some (Eol, s1)
      | String "*" _ | String "+" _ | String "?" _ => None
      | String "\" (String c s1) =>
          let n := nat_of_ascii c in
          if is_digit c || ((65 <=? n)%nat && (n <=? 90)%nat)
             || ((97 <=? n)%nat && (n <=? 122)%nat)
          then None else Some (Lit c, s1)
      | String "\" EmptyString => None
      | String c s1 => Some (Lit c, s1)
      end
  end.

Definition compile (src : string) : option re :=
  match alternation (3 * String.length src + 3) src with
  | Some (a, EmptyString) => Some a
  | _ => None
  end.

(** A position in the text: whether it is the start of the text, and the
    text that is left. *)
Definition pos : Type := bool * string.

Definition in_ranges (c : ascii) (rs : list (ascii * ascii)) : bool :=
  existsb (λ r, (nat_of_ascii r.1 <=? nat_of_ascii c)%nat
                && (nat_of_ascii c <=? nat_of_ascii r.2)%nat) rs.

Definition one_char (ok : ascii → bool) (p : pos) : list pos :=
  match p.2 with
  | String c rest => if ok c then [(false, rest)] else []
  | EmptyString => []
  end.

Fixpoint star_ends (step : pos → list pos) (n : nat) (ps : list pos) : list pos :=
  match n with
  | 0 => ps
  | S n' =>
      ps ++ star_ends step n'
        (flat_map (λ p, filter (λ q, String.length q.2 < String.length p.2)
                               (step p)) ps)
  end.

(** The positions at which a match of [a] that starts at [p] can end. *)
Fixpoint ends (a : re) (p : pos) : list pos :=
  match a with
  | Eps => [p]
  | Lit c => one_char (Ascii.eqb c) p
  | AnyChar => one_char (λ c, negb (Ascii.eqb c "010")) p
  | Class negated rs => one_char (λ c, xorb negated (in_ranges c rs)) p
  | Bol => if p.1 then [p] else []
  | Eol => match p.2 with EmptyString => [p] | _ => [] end
  | Cat a1 a2 => flat_map (ends a2) (ends a1 p)
  | Alt a1 a2 => ends a1 p ++ ends a2 p
  | Star a1 => star_ends (ends a1) (String.length p.2) [p]
  end.

Fixpoint starts (at_start : bool) (s : string) : list pos :=
  (at_start, s) ::
  match s with
  | String _ s' => starts false s'
  | EmptyString => []
  end.

(** [MatchString]: some match of the pattern starts somewhere in the text. *)
Definition search (a : re) (s : string) : bool :=
  existsb (λ p, match ends a p with [] => false | _ :: _ => true end)
          (starts true s).

End regexp.

#[export] Instance regexp_engine : RegexpEngine regexp.re :=
  {| MustCompile := regexp.compile;
     MatchString := regexp.search |}.

(** The handlers that [New] installs by default come from [net/http]. *)
Class DefaultHandlers (H : Type) := {
  http_NotFoundHandler : H;
  http_MethodNotAllowedHandler : H;
  http_NoContentHandler : H;
}.

(** Go leaves the iteration order of a map unspecified: [range] visits
    every key once, in an order the runtime picks. *)
Class MapRange := {
  range_keys : gmap string bool → list string;
  range_keys_perm : ∀ m, range_keys m ≡ₚ (map_to_list m).*1;
}.

Definition MethodGet := "GET".
Definition MethodPost := "POST".
Definition MethodPut := "PUT".
Definition MethodDelete := "DELETE".
Definition MethodPatch := "PATCH".
Definition MethodHead := "HEAD".
Definition MethodOptions := "OPTIONS".
Definition MethodTrace := "TRACE".
Definition MethodConnect := "CONNECT".

Definition AllMethods : list string :=
  [MethodGet; MethodHead; MethodPost; MethodPut;
   MethodPatch; MethodDelete; MethodConnect;
   MethodOptions; MethodTrace].

Fixpoint contains (slice : list string) (item : string) : bool :=
  match slice with
  | [] => false
  | s :: slice' => if String.eqb s item then true else contains slice' item
  end.

Section flow.
Context {H Regexp : Type} `{!RegexpEngine Regexp} `{!UnicodeTables}.

(** [routeTree]: one node of the route tree. *)
#[local] Unset Elimination Schemes.
Inductive routeTree : Type := RouteTree {
  segment : string;
  handlers : gmap string H;
  children : list routeTree;
  paramName : string;
  isWildcard : bool;
  rxPattern : option Regexp;
}.
#[local] Set Elimination Schemes.

(** [copyParams]: a fresh map with the same entries; maps are values here. *)
Definition copyParams (params : gmap string string) : gmap string string :=
  params.

Definition makeAllowedMethodsMap (hs : gmap string H) : gmap string bool :=
  (λ _, true) <$> hs.

(** The two [for ... range node.children] loops of [findHandler] return
    from the first iteration whose recursive call yields a handler. *)
Fixpoint first_hit {A B : Type} (f : A → option B) (l : list A) : option B :=
  match l with
  | [] => None
  | x :: l' => match f x with
               | Some r => Some r
               | None => first_hit f l'
               end
  end.

Definition MatchResult : Type :=
  gmap string H * gmap string string * gmap string bool.

(** [findHandler]; [None] is the triple of nils.  The Go function writes
    the wildcard capture into the map it was given; that branch always
    returns a match, so no branch that fails leaves a write behind and the
    map can be passed by value. *)
Fixpoint findHandler (segments : list string) (node : routeTree)
    (params : gmap string string) {struct segments} : option MatchResult :=
  match segments with
  | [] =>
      if (0 <? size (handlers node))%nat
      then Some (handlers node, params, makeAllowedMethodsMap (handlers node))
      else None
  | seg :: remainingSegments =>
      if isWildcard node then
        Some (handlers node,
              <["..." := strings.Join segments "/"]> params,
              makeAllowedMethodsMap (handlers node))
      else
        match first_hit (λ child,
                if String.eqb (segment child) seg
                then findHandler remainingSegments child params
                else None) (children node) with
        | Some r => Some r
        | None =>
            first_hit (λ child,
                if negb (String.eqb (paramName child) EmptyString) then
                  match rxPattern child with
                  | Some rx =>
                      if negb (MatchString rx seg) then None
                      else findHandler remainingSegments child
                             (<[paramName child := seg]> (copyParams params))
                  | None =>
                      findHandler remainingSegments child
                        (<[paramName child := seg]> (copyParams params))
                  end
                else None) (children node)
        end
  end.

(** ** Registration *)

(** Field updates through a node pointer ([node.children = ...] and so on). *)
Definition set_handlers (node : routeTree) (hs : gmap string H) : routeTree :=
  RouteTree (segment node) hs (children node) (paramName node)
            (isWildcard node) (rxPattern node).

Definition set_children (node : routeTree) (cs : list routeTree) : routeTree :=
  RouteTree (segment node) (handlers node) cs (paramName node)
            (isWildcard node) (rxPattern node).

Definition set_isWildcard (node : routeTree) (b : bool) : routeTree :=
  RouteTree (segment node) (handlers node) (children node) (paramName node)
            b (rxPattern node).

Definition set_rxPattern (node : routeTree) (rx : option Regexp) : routeTree :=
  RouteTree (segment node) (handlers node) (children node) (paramName node)
            (isWildcard node) rx.

(** The loop of [findOrCreateChild]: the first child with the given
    segment text and parameter name, and its position. *)
Definition find_child (cs : list routeTree) (seg pn : string)
    : option (nat * routeTree) :=
  list_find (λ child, segment child = seg ∧ paramName child = pn) cs.

(** [findOrCreateChild]: the node (with the new child appended when none
    had the key), the position of the child among the children, and the
    child the Go function returns a pointer to. *)
Definition findOrCreateChild (node : routeTree) (seg pn : string)
    : routeTree * nat * routeTree :=
  match find_child (children node) seg pn with
  | Some (i, child) => (node, i, child)
  | None =>
      let newChild := RouteTree seg ∅ [] pn false None in
      (set_children node (children node ++ [newChild]),
       length (children node), newChild)
  end.

(** [sync.Map.LoadOrStore]: the stored value when the key is present,
    otherwise the given value, which is then stored. *)
Definition LoadOrStore (cache : gmap string Regexp) (key : string) (value : Regexp)
    : Regexp * gmap string Regexp :=
  match cache !! key with
  | Some actual => (actual, cache)
  | None => (value, <[key := value]> cache)
  end.

(** The [if strings.HasPrefix(segment, ":") ... else ...] of [addRoute]:
    the child for a segment that is not the wildcard marker, with its
    constraint set when the segment carries one.  [None] is the panic of
    [regexp.MustCompile]. *)
Definition select_child (current : routeTree) (seg : string)
    (cache : gmap string Regexp)
    : option (routeTree * nat * routeTree * gmap string Regexp) :=
  if strings.HasPrefix seg ":" then
    let '(pn, rxSource, hasRx) :=
      strings.Cut (strings.TrimPrefix seg ":") "|" in
    let '(current, i, child) := findOrCreateChild current EmptyString pn in
    if hasRx then
      compiled ← MustCompile rxSource;
      let '(rx, cache) := LoadOrStore cache rxSource compiled in
      Some (current, i, set_rxPattern child (Some rx), cache)
    else Some (current, i, child, cache)
  else
    let '(current, i, child) := findOrCreateChild current seg EmptyString in
    Some (current, i, child, cache).

(** The [if i == len(segments)-1] of [addRoute]. *)
Definition bind_if_last (rest : list string) (method : string) (handler : H)
    (child : routeTree) : routeTree :=
  match rest with
  | [] => set_handlers child (<[method := handler]> (handlers child))
  | _ :: _ => child
  end.

(** The loop of [addRoute], started at [current].  The Go loop moves a
    pointer down the tree and writes through it; here the walk returns the
    rewritten subtree, which is put back at the child's position. *)
Fixpoint addRoute_from (segments : list string) (method : string) (handler : H)
    (current : routeTree) (cache : gmap string Regexp)
    : option (routeTree * gmap string Regexp) :=
  match segments with
  | [] => Some (current, cache)
  | seg :: rest =>
      if String.eqb seg "..." then
        Some (set_handlers (set_isWildcard current true)
                           (<[method := handler]> (handlers current)), cache)
      else
        '(current, i, child, cache) ← select_child current seg cache;
        let child := bind_if_last rest method handler child in
        '(child, cache) ← addRoute_from rest method handler child cache;
        Some (set_children current (<[i := child]> (children current)), cache)
  end.

(** ** The router *)

Record Mux : Type := mkMux {
  root : routeTree;
  NotFound : option H;
  MethodNotAllowed : option H;
  Options : option H;
  middlewares : list (H → H);
  rxCache : gmap string Regexp;
}.

Definition New `{DefaultHandlers H} : Mux :=
  {| root := RouteTree EmptyString ∅ [] EmptyString false None;
     NotFound := Some http_NotFoundHandler;
     MethodNotAllowed := Some http_MethodNotAllowedHandler;
     Options := Some http_NoContentHandler;
     middlewares := [];
     rxCache := ∅ |}.

Definition addRoute (m : Mux) (segments : list string) (method : string)
    (handler : H) : option Mux :=
  '(root', cache') ← addRoute_from segments method handler (root m) (rxCache m);
  Some (mkMux root' (NotFound m) (MethodNotAllowed m) (Options m)
              (middlewares m) cache').

(** The loop of [wrap]: [i] runs from [n - 1] down to [0]. *)
Fixpoint wrap_from (mws : list (H → H)) (n : nat) (handler : H) : H :=
  match n with
  | 0 => handler
  | S i =>
      match mws !! i with
      | Some mw => wrap_from mws i (mw handler)
      | None => handler
      end
  end.

Definition wrap (m : Mux) (handler : H) : H :=
  wrap_from (middlewares m) (length (middlewares m)) handler.

Definition Use (m : Mux) (mw : list (H → H)) : Mux :=
  mkMux (root m) (NotFound m) (MethodNotAllowed m) (Options m)
        (middlewares m ++ mw) (rxCache m).

(** The [for _, method := range methods] loop of [Handle]. *)
Fixpoint addRoutes (m : Mux) (segments : list string) (methods : list string)
    (handler : H) : option Mux :=
  match methods with
  | [] => Some m
  | method :: methods' =>
      m' ← addRoute m segments (strings.ToUpper method) handler;
      addRoutes m' segments methods' handler
  end.

Definition Handle (m : Mux) (pattern : string) (handler : H)
    (methods : list string) : option Mux :=
  let methods := if (length methods =? 0)%nat then AllMethods else methods in
  let methods :=
    if contains methods MethodGet && negb (contains methods MethodHead)
    then (methods ++ [MethodHead])%list else methods in
  let segments := strings.Split (strings.Trim pattern "/") "/" in
  let wrappedHandler := wrap m handler in
  addRoutes m segments methods wrappedHandler.

(** [Group]: the sub-router shares the route tree and starts from a copy of
    the decorator list; its three fallback fields and its pattern cache are
    zero values.  What [fn] registers through the sub-router lands in the
    shared tree; the receiver's own decorators are left as they were. *)
Definition Group (m : Mux) (fn : Mux → option Mux) : option Mux :=
  let subMux := mkMux (root m) None None None (middlewares m) ∅ in
  sub ← fn subMux;
  Some (mkMux (root sub) (NotFound m) (MethodNotAllowed m) (Options m)
              (middlewares m) (rxCache m)).

(** ** Serving *)

Definition stringMapKeys `{MapRange} (m : gmap string bool) : list string :=
  range_keys m.

(** What [ServeHTTP] does with a request: the handler it invokes, the
    parameters it put in the request context, the [Allow] header it set. *)
Inductive Outcome : Type :=
| Dispatch (h : H) (ctx : gmap string string)
| Preflight (allow : string) (h : H)
| MethodNotAllowedResponse (allow : string) (h : H)
| NotFoundResponse (h : H)
| NilHandlerPanic.

(** Invoking the decorated fallback; a nil fallback handler is a nil
    dereference once the chain reaches it. *)
Definition serve_fallback (m : Mux) (fallback : option H)
    (k : H → Outcome) : Outcome :=
  match fallback with
  | Some h => k (wrap m h)
  | None => NilHandlerPanic
  end.

Definition ServeHTTP `{MapRange} (m : Mux) (method : string)
    (escapedPath : string) : Outcome :=
  let path := strings.Trim escapedPath "/" in
  let segments := strings.Split path "/" in
  let fallback (allowed : gmap string bool) : Outcome :=
    if (0 <? size allowed)%nat then
      let allow :=
        strings.Join (stringMapKeys allowed ++ [MethodOptions])%list ", " in
      if String.eqb method MethodOptions
      then serve_fallback m (Options m) (Preflight allow)
      else serve_fallback m (MethodNotAllowed m) (MethodNotAllowedResponse allow)
    else serve_fallback m (NotFound m) NotFoundResponse in
  match findHandler segments (root m) ∅ with
  | Some (handler, params, allowed) =>
      if default false (allowed !! method) then
        match handler !! method with
        | Some h => Dispatch h params
        | None => NilHandlerPanic
        end
      else fallback allowed
  | None => fallback ∅
  end.

(** [Param]: the captured text, or the empty string. *)
Definition Param (ctx : gmap string string) (param : string) : string :=
  match ctx !! param with
  | Some v => v
  | None => EmptyString
  end.

#[local] Unset Elimination Schemes.
(** ** Setting a router up

    A setup is a sequence of the steps the package offers for configuring a
    router: the three registration calls and the assignments to the three
    exported fallback fields.  The body of a [Group] is the setup its
    function runs on the sub-router. *)
Inductive Setup : Type :=
| SetNotFound (handler : H)
| SetMethodNotAllowed (handler : H)
| SetOptions (handler : H)
| CallUse (mw : list (H → H))
| CallHandle (pattern : string) (handler : H) (methods : list string)
| CallGroup (body : list Setup).
#[local] Set Elimination Schemes.

(** The steps of a setup in sequence; a panic stops it. *)
Fixpoint run_with (step : Setup → Mux → option Mux) (cs : list Setup) (m : Mux)
    : option Mux :=
  match cs with
  | [] => Some m
  | c :: cs' => m' ← step c m; run_with step cs' m'
  end.

Fixpoint run_call (c : Setup) (m : Mux) {struct c} : option Mux :=
  match c with
  | SetNotFound handler =>
      Some (mkMux (root m) (Some handler) (MethodNotAllowed m) (Options m)
                  (middlewares m) (rxCache m))
  | SetMethodNotAllowed handler =>
      Some (mkMux (root m) (NotFound m) (Some handler) (Options m)
                  (middlewares m) (rxCache m))
  | SetOptions handler =>
      Some (mkMux (root m) (NotFound m) (MethodNotAllowed m) (Some handler)
                  (middlewares m) (rxCache m))
  | CallUse mw => Some (Use m mw)
  | CallHandle pattern handler methods => Handle m pattern handler methods
  | CallGroup body => Group m (run_with run_call body)
  end.

Definition run (cs : list Setup) (m : Mux) : option Mux :=
  run_with run_call cs m.

(** [registers setup pattern methods]: somewhere in the setup, possibly
    inside groups, [Handle] is called with this pattern and these methods. *)
Inductive registers : list Setup → string → list string → Prop :=
| registers_here pattern handler methods rest :
    registers (CallHandle pattern handler methods :: rest) pattern methods
| registers_group body rest pattern methods :
    registers body pattern methods →
    registers (CallGroup body :: rest) pattern methods
| registers_later c rest pattern methods :
    registers rest pattern methods →
    registers (c :: rest) pattern methods.

(** ** Vocabulary for the statements about the tree *)

(** The pair that [findOrCreateChild] compares. *)
Definition key (n : routeTree) : string * string := (segment n, paramName n).

(** [node_of t n]: [n] is [t] or one of the nodes below it. *)
Inductive node_of : routeTree → routeTree → Prop :=
| node_here t : node_of t t
| node_below t c n : c ∈ children t → node_of c n → node_of t n.

(** The child that a literal segment of a pattern selects. *)
Definition literal_child (t : routeTree) (seg : string) : option routeTree :=
  snd <$> find_child (children t) seg EmptyString.

(** The node that a pattern of literal segments leads to. *)
Fixpoint node_at (t : routeTree) (prefix : list string) : option routeTree :=
  match prefix with
  | [] => Some t
  | seg :: prefix' => c ← literal_child t seg; node_at c prefix'
  end.

(** What registration maintains at every node. *)
Record node_ok (n : routeTree) : Prop := {
  ok_kind : segment n = EmptyString ∨ paramName n = EmptyString;
  ok_keys : NoDup (key <$> children n);
  ok_wild : isWildcard n = true → handlers n ≠ ∅;
}.

#[local] Unset Elimination Schemes.
Inductive tree_ok : routeTree → Prop :=
| tree_ok_node n : node_ok n → Forall tree_ok (children n) → tree_ok n.
#[local] Set Elimination Schemes.

(** The key a pattern segment stands for. *)
Definition segment_key (seg : string) : string * string :=
  if strings.HasPrefix seg ":"
  then (EmptyString, (strings.Cut (strings.TrimPrefix seg ":") "|").1.1)
  else (seg, EmptyString).

Definition cache_ok (cache : gmap string Regexp) : Prop :=
  ∀ src rx, cache !! src = Some rx → MustCompile src = Some rx.

(** A pattern segment that is literal text. *)
Definition literal_segment (seg : string) : Prop :=
  seg ≠ EmptyString ∧ strings.HasPrefix seg ":" = false ∧ seg ≠ "...".

(** What setting a router up maintains. *)
Definition mux_ok (m : Mux) : Prop :=
  tree_ok (root m) ∧ cache_ok (rxCache m).

Definition fallbacks_set (m : Mux) : Prop :=
  is_Some (NotFound m) ∧ is_Some (MethodNotAllowed m) ∧ is_Some (Options m).

(** The reading of "at most one child with the wildcard-terminal flag". *)
Definition one_wildcard_child (n : routeTree) : Prop :=
  ∀ i j c1 c2, children n !! i = Some c1 → children n !! j = Some c2 →
    isWildcard c1 = true → isWildcard c2 = true → i = j.

End flow.

Arguments routeTree : clear implicits.
Arguments Mux : clear implicits.
Arguments Outcome H : clear implicits.
Arguments Setup H : clear implicits.
Arguments MatchResult H : clear implicits.

(** Induction over setups, with the induction hypothesis for every step of
    a group body. *)
Section Setup_induction.
Context {H : Type} (P : Setup H → Prop).
Context (HNotFound : ∀ h, P (SetNotFound h)).
Context (HMethodNotAllowed : ∀ h, P (SetMethodNotAllowed h)).
Context (HOptions : ∀ h, P (SetOptions h)).
Context (HUse : ∀ mw, P (CallUse mw)).
Context (HHandle : ∀ pattern h methods, P (CallHandle pattern h methods)).
Context (HGroup : ∀ body, Forall P body → P (CallGroup body)).

Fixpoint Setup_nested_ind (c : Setup H) : P c :=
  match c with
  | SetNotFound h => HNotFound h
  | SetMethodNotAllowed h => HMethodNotAllowed h
  | SetOptions h => HOptions h
  | CallUse mw => HUse mw
  | CallHandle pattern h methods => HHandle pattern h methods
  | CallGroup body =>
      HGroup body
        ((fix all (cs : list (Setup H)) : Forall P cs :=
            match cs with
            | [] => @List.Forall_nil _ P
            | c' :: cs' => @List.Forall_cons _ P c' cs' (Setup_nested_ind c') (all cs')
            end) body)
  end.

End Setup_induction.

(** ** Concrete routers for the examples

    A handler is known by its name, and a decorator prefixes the name of
    the handler it wraps. *)

#[export] Instance named_defaults : DefaultHandlers string :=
  {| http_NotFoundHandler := "404";
     http_MethodNotAllowedHandler := "405";
     http_NoContentHandler := "204" |}.

#[export] Instance listed_range : MapRange :=
  {| range_keys := λ m, (map_to_list m).*1;
     range_keys_perm := λ m, reflexivity _ |}.

(** The method names of the examples are ASCII, and on ASCII text
    [strings.ToUpper] does not consult the tables of Unicode: every
    instance gives the same routers.  This one leaves other text alone. *)
#[export] Instance examples_tables : UnicodeTables :=
  {| Map_unicode_ToUpper := λ s, s |}.

Module Demo.

Definition tag (name : string) : string → string :=
  λ next, name ++ "(" ++ next ++ ")".

(** The router a setup produces, starting from [New]. *)
Definition built (setup : list (Setup string)) : Mux string regexp.re :=
  default New (run setup New).

(** The tree and the pattern cache after one more [addRoute]. *)
Definition added (segments : list string) (method handler : string)
    (t : routeTree string regexp.re) : routeTree string regexp.re * gmap string regexp.re :=
  default (t, ∅) (addRoute_from segments method handler t ∅).

(** A handler that appends to a log, as the decorators of the tests do. *)
Definition Logging : Type := list string → list string.

Definition observe (id : string) : Logging → Logging :=
  λ next log, next (log ++ [id])%list.

End Demo.

(** ** Vocabulary for the statements about registered patterns *)

Section pattern_vocabulary.
Context {H Regexp : Type} `{!RegexpEngine Regexp}.

(** The method list [Handle] registers: all methods for an empty list, and
    HEAD after the given ones when GET is among them and HEAD is not. *)
Definition effective_methods (methods : list string) : list string :=
  let methods := if (length methods =? 0)%nat then AllMethods else methods in
  if contains methods MethodGet && negb (contains methods MethodHead)
  then (methods ++ [MethodHead])%list else methods.

(** The node that a list of child keys leads to: at each node the child
    that [findOrCreateChild] returns for the key. *)
Fixpoint node_by_keys (t : routeTree H Regexp) (ks : list (string * string))
    : option (routeTree H Regexp) :=
  match ks with
  | [] => Some t
  | k :: ks' =>
      c ← snd <$> find_child (children t) k.1 k.2;
      node_by_keys c ks'
  end.

(** The keys of the segments of a pattern that come before its wildcard
    marker, that is, the position at which [addRoute] sets the flag;
    [None] for a pattern without the marker. *)
Fixpoint marker_keys (pattern : list string) : option (list (string * string)) :=
  match pattern with
  | [] => None
  | seg :: rest =>
      if String.eqb seg "..." then Some []
      else (λ ks, segment_key seg :: ks) <$> marker_keys rest
  end.

(** At the position [ks] there is a wildcard terminal that binds
    [method]. *)
Definition wildcard_bound (t : routeTree H Regexp) (ks : list (string * string))
    (method : string) : Prop :=
  ∃ n, node_by_keys t ks = Some n ∧ isWildcard n = true ∧
       is_Some (handlers n !! method).

(** The children that the two loops of [findHandler] enter for a segment,
    in the order they are entered, each with the parameters it is entered
    with: first the children whose segment text is the segment, then the
    parameter children whose constraint, if any, finds a match in it. *)
Definition attempts (node : routeTree H Regexp) (seg : string)
    (params : gmap string string)
    : list (routeTree H Regexp * gmap string string) :=
  ((λ child, (child, params)) <$>
     List.filter (λ child, String.eqb (segment child) seg) (children node))
  ++
  ((λ child, (child, <[paramName child := seg]> (copyParams params))) <$>
     List.filter (λ child,
         negb (String.eqb (paramName child) EmptyString) &&
         match rxPattern child with
         | Some rx => MatchString rx seg
         | None => true
         end) (children node)).

(** [prefix_taken t ks request rest params]: the segments [request] are
    taken one by one by the nodes at the keys [ks] below [t], with [rest]
    still to come after them.  At each step the node is not a wildcard
    terminal, the child with the key is among the children that
    [findHandler] enters for the segment, and none of the children entered
    before it has a match for what is left of the path. *)
Fixpoint prefix_taken (t : routeTree H Regexp) (ks : list (string * string))
    (request rest : list string) (params : gmap string string) : bool :=
  match ks, request with
  | [], [] => true
  | k :: ks', text :: request' =>
      negb (isWildcard t) &&
      match list_find (λ a, key a.1 = k) (attempts t text params) with
      | Some (i, (child, p)) =>
          forallb (λ a, match findHandler (request' ++ rest) a.1 a.2 with
                        | None => true
                        | Some _ => false
                        end) (take i (attempts t text params))
          && prefix_taken child ks' request' rest p
      | None => false
      end
  | _, _ => false
  end.

End pattern_vocabulary.

(** ** Vocabulary for the further properties *)

Section more_vocabulary.
Context {H Regexp : Type} `{!RegexpEngine Regexp}.

(** The node at which [addRoute] binds the handler of a pattern: it follows
    the child of each segment's key and stops at the wildcard marker. *)
Fixpoint route_node (t : routeTree H Regexp) (pattern : list string)
    : option (routeTree H Regexp) :=
  match pattern with
  | [] => Some t
  | seg :: rest =>
      if String.eqb seg "..." then Some t
      else
        c ← snd <$> find_child (children t) (segment_key seg).1 (segment_key seg).2;
        route_node c rest
  end.

(** The bindings at that node; none when the node does not exist yet. *)
Definition route_handlers (t : routeTree H Regexp) (pattern : list string)
    : gmap string H :=
  match route_node t pattern with
  | Some n => handlers n
  | None => ∅
  end.

(** Whether every constraint that [addRoute] reaches compiles: the
    segments after the wildcard marker are never looked at. *)
Fixpoint constraints_compile (segments : list string) : bool :=
  match segments with
  | [] => true
  | seg :: rest =>
      if String.eqb seg "..." then true
      else
        (if strings.HasPrefix seg ":" then
           let '(_, rxSource, hasRx) :=
             strings.Cut (strings.TrimPrefix seg ":") "|" in
           if hasRx then
             match MustCompile (Regexp := Regexp) rxSource with
             | Some _ => true
             | None => false
             end
           else true
         else true)
        && constraints_compile rest
  end.

(** The decorators that the [Use] calls of a setup add to the router the
    setup runs on; those inside groups are not among them. *)
Fixpoint top_level_uses (setup : list (Setup H)) : list (H → H) :=
  match setup with
  | [] => []
  | CallUse mw :: rest => (mw ++ top_level_uses rest)%list
  | _ :: rest => top_level_uses rest
  end.

(** A property of the bindings that holds at every node of a tree. *)
#[local] Unset Elimination Schemes.
Inductive every_binding (Q : gmap string H → Prop) : routeTree H Regexp → Prop :=
| every_binding_node n :
    Q (handlers n) → Forall (every_binding Q) (children n) → every_binding Q n.
#[local] Set Elimination Schemes.

(** The constraint source that a pattern segment carries, if any. *)
Definition segment_constraint (seg : string) : option string :=
  if strings.HasPrefix seg ":" then
    let '(_, rxSource, hasRx) :=
      strings.Cut (strings.TrimPrefix seg ":") "|" in
    if hasRx then Some rxSource else None
  else None.

(** [only_route pattern t]: below [t] the tree holds the nodes of the one
    pattern and nothing else. *)
Fixpoint only_route (pattern : list string) (t : routeTree H Regexp) : Prop :=
  match pattern with
  | [] => children t = [] ∧ isWildcard t = false
  | seg :: rest =>
      if String.eqb seg "..." then children t = [] ∧ isWildcard t = true
      else
        isWildcard t = false ∧
        ∃ c, children t = [c] ∧ key c = segment_key seg ∧
             rxPattern c = segment_constraint seg ≫= MustCompile ∧
             only_route rest c
  end.

(** Matching the segments of a request against one pattern, segment by
    segment: a literal segment takes the same text, a parameter segment
    with a name takes a non-empty text that its constraint accepts and
    captures it, and the wildcard marker takes what is left. *)
Fixpoint captures (pattern request : list string) (params : gmap string string)
    : option (gmap string string) :=
  match pattern with
  | [] =>
      match request with
      | [] => Some params
      | _ :: _ => None
      end
  | seg :: pattern' =>
      if String.eqb seg "..." then
        match request with
        | [] => Some params
        | _ :: _ => Some (<["..." := strings.Join request "/"]> params)
        end
      else
        match request with
        | [] => None
        | text :: request' =>
            if strings.HasPrefix seg ":" then
              let name := (segment_key seg).2 in
              if String.eqb text EmptyString || String.eqb name EmptyString then None
              else
                match segment_constraint seg with
                | Some rxSource =>
                    match MustCompile (Regexp := Regexp) rxSource with
                    | Some rx =>
                        if MatchString rx text
                        then captures pattern' request' (<[name := text]> params)
                        else None
                    | None => None
                    end
                | None => captures pattern' request' (<[name := text]> params)
                end
            else if String.eqb seg text then captures pattern' request' params
            else None
        end
  end.

End more_vocabulary.

(** * Properties *)

Section serving.
Context {H Regexp : Type} `{!RegexpEngine Regexp} `{!UnicodeTables} `{MapRange}.
Implicit Types (t node : routeTree H Regexp) (m : Mux H Regexp) (h : H).

Lemma first_hit_Some {A B} (f : A → option B) (l : list A) (r : B) :
  first_hit f l = Some r → ∃ x, x ∈ l ∧ f x = Some r.
Proof.
  induction l as [|x l IH]; simpl; [done|].
  destruct (f x) as [r'|] eqn:Hx.
  - intros [= ->]. exists x. split; [left | done].
  - intros (y & Hy & Hfy)%IH. exists y. split; [by right | done].
Qed.

Lemma first_hit_None {A B} (f : A → option B) (l : list A) :
  first_hit f l = None ↔ ∀ x, x ∈ l → f x = None.
Proof.
  induction l as [|x l IH]; simpl.
  - split; [|done]. intros _ x Hx. by apply elem_of_nil in Hx.
  - destruct (f x) as [r|] eqn:Hx.
    + split; [done|]. intros Hall. rewrite <- Hx. apply Hall. left.
    + rewrite IH. split.
      * intros Hall y [->|Hy]%elem_of_cons; auto.
      * intros Hall y Hy. apply Hall. by right.
Qed.

Lemma first_hit_first {A B} (f : A → option B) (l : list A) :
  (∃ x, x ∈ l ∧ is_Some (f x)) →
  ∃ i x r, l !! i = Some x ∧ f x = Some r ∧ first_hit f l = Some r ∧
    ∀ j y, l !! j = Some y → (j < i)%nat → f y = None.
Proof.
  induction l as [|a l IH]; intros (x & Hin & Hx).
  - by apply elem_of_nil in Hin.
  - simpl. destruct (f a) as [ra|] eqn:Ha.
    + exists 0%nat, a, ra. split_and!; try done. intros j y _ Hlt. lia.
    + apply elem_of_cons in Hin as [->|Hin].
      { rewrite Ha in Hx. by destruct Hx. }
      destruct IH as (i & x' & r' & Hi & Hr & Hhit & Hleast); [by exists x|].
      exists (S i), x', r'. split_and!; try done.
      intros [|j] y Hj Hlt; simpl in Hj; [congruence|].
      apply (Hleast j y); [done|lia].
Qed.

(** The allowed-method table that comes back with a match is the one made
    from the bindings that come back with it. *)
Lemma findHandler_allowed segments : ∀ node params hs ps al,
  findHandler segments node params = Some (hs, ps, al) →
  al = makeAllowedMethodsMap hs.
Proof.
  induction segments as [|seg rest IH]; intros node params hs ps al; simpl.
  - case_match; [|done]. by intros [= <- <- <-].
  - destruct (isWildcard node); [by intros [= <- <- <-]|].
    destruct (first_hit _ (children node)) as [r|] eqn:Hlit.
    + intros [= ->]. apply first_hit_Some in Hlit as (c & _ & Hc).
      destruct (String.eqb (segment c) seg); [eauto | done].
    + intros (c & _ & Hc)%first_hit_Some.
      destruct (negb (String.eqb (paramName c) EmptyString)); [|done].
      destruct (rxPattern c) as [rx|]; [|eauto].
      destruct (negb (MatchString rx seg)); [done | eauto].
Qed.

Lemma allowed_lookup (hs : gmap string H) (method : string) :
  default false (makeAllowedMethodsMap hs !! method) = true ↔ is_Some (hs !! method).
Proof.
  unfold makeAllowedMethodsMap. rewrite lookup_fmap.
  destruct (hs !! method); simpl; split; try done.
Qed.

Lemma allowed_size (hs : gmap string H) :
  (0 <? size (makeAllowedMethodsMap hs))%nat = true ↔ hs ≠ ∅.
Proof.
  unfold makeAllowedMethodsMap. rewrite map_size_fmap, Nat.ltb_lt.
  rewrite <- map_size_non_empty_iff. lia.
Qed.

Lemma allowed_keys (hs : gmap string H) :
  (map_to_list (makeAllowedMethodsMap hs)).*1 ≡ₚ (map_to_list hs).*1.
Proof.
  unfold makeAllowedMethodsMap. rewrite map_to_list_fmap.
  rewrite <- list_fmap_compose. apply Permutation_refl'. by apply list_fmap_ext.
Qed.

(** ** The decorator chain *)

Lemma wrap_from_take (mws : list (H → H)) (n : nat) : ∀ h,
  (n ≤ length mws)%nat →
  wrap_from mws n h = foldr (λ d inner, d inner) h (take n mws).
Proof.
  induction n as [|i IH]; intros h Hn; simpl; [done|].
  destruct (mws !! i) as [mw|] eqn:Hi.
  - rewrite IH by lia. erewrite take_S_r by done.
    by rewrite foldr_app.
  - apply lookup_ge_None in Hi. lia.
Qed.

Lemma wrap_foldr m h :
  wrap m h = foldr (λ d inner, d inner) h (middlewares m).
Proof.
  unfold wrap. rewrite wrap_from_take by done. by rewrite firstn_all.
Qed.

Lemma Use_all m (batches : list (list (H → H))) :
  middlewares (foldl Use m batches) = (middlewares m ++ concat batches)%list.
Proof.
  revert m. induction batches as [|b bs IH]; intros m; simpl.
  - by rewrite app_nil_r.
  - rewrite IH. simpl. by rewrite <- app_assoc.
Qed.

(** ** What [ServeHTTP] does, by cases on the match *)

Lemma ServeHTTP_cases m method path :
  ServeHTTP m method path =
  match findHandler (strings.Split (strings.Trim path "/") "/") (root m) ∅ with
  | Some (hs, ps, _) =>
      match hs !! method with
      | Some h => Dispatch h ps
      | None =>
          if decide (hs = ∅) then serve_fallback m (NotFound m) NotFoundResponse
          else
            let allow :=
              strings.Join (range_keys (makeAllowedMethodsMap hs) ++ [MethodOptions])
                           ", " in
            if String.eqb method MethodOptions
            then serve_fallback m (Options m) (Preflight allow)
            else serve_fallback m (MethodNotAllowed m) (MethodNotAllowedResponse allow)
      end
  | None => serve_fallback m (NotFound m) NotFoundResponse
  end.
Proof.
  unfold ServeHTTP.
  destruct (findHandler _ _ _) as [[[hs ps] al]|] eqn:Hfound; [|done].
  apply findHandler_allowed in Hfound as ->.
  destruct (hs !! method) as [h|] eqn:Hm.
  - assert (default false (makeAllowedMethodsMap hs !! method) = true) as ->; [|done].
    apply allowed_lookup. by rewrite Hm.
  - assert (default false (makeAllowedMethodsMap hs !! method) = false) as ->.
    { apply not_true_is_false. rewrite allowed_lookup, Hm. by intros [? ?]. }
    destruct (decide (hs = ∅)) as [->|Hne].
    + done.
    + apply allowed_size in Hne. unfold stringMapKeys. by rewrite Hne.
Qed.

End serving.

(** ** Registration keeps the tree well formed *)

Section registration.
Context {H Regexp : Type} `{!RegexpEngine Regexp} `{!UnicodeTables}.
Implicit Types (t node current child : routeTree H Regexp) (cs : list (routeTree H Regexp)).
Implicit Types (cache : gmap string Regexp) (h : H).

Lemma set_children_same node : set_children node (children node) = node.
Proof. by destruct node. Qed.

Lemma find_child_Some cs seg pn i c :
  find_child cs seg pn = Some (i, c) ↔
  cs !! i = Some c ∧ key c = (seg, pn) ∧
  ∀ j y, cs !! j = Some y → (j < i)%nat → key y ≠ (seg, pn).
Proof.
  unfold find_child, key. rewrite list_find_Some. split.
  - intros (Hi & [-> ->] & Hleast). split_and!; [done..|].
    intros j y Hj Hlt [= ? ?]. by eapply Hleast.
  - intros (Hi & [= -> ->] & Hleast). split_and!; [done..|].
    intros j y Hj Hlt [? ?]. eapply Hleast; [done..|]. by f_equal.
Qed.

Lemma find_child_None cs seg pn :
  find_child cs seg pn = None ↔ (seg, pn) ∉ key <$> cs.
Proof.
  unfold find_child, key. rewrite list_find_None, Forall_forall, list_elem_of_fmap.
  split.
  - intros Hall (c & [= -> ->] & Hc). by eapply Hall.
  - intros Hnot c Hc [<- <-]. apply Hnot. by exists c.
Qed.

(** Replacing a child by a node with the same key does not change what the
    search for a key finds, up to the replaced child itself. *)
Lemma find_child_insert_same cs seg pn i x y :
  find_child cs seg pn = Some (i, x) → key y = key x →
  find_child (<[i := y]> cs) seg pn = Some (i, y).
Proof.
  rewrite !find_child_Some. intros (Hi & Hk & Hleast) Hy.
  assert (i < length cs)%nat by eauto using lookup_lt_Some.
  split_and!.
  - by apply list_lookup_insert_eq.
  - by rewrite Hy.
  - intros j z Hj Hlt. rewrite list_lookup_insert_ne in Hj by lia. eauto.
Qed.

Lemma find_child_insert_other cs seg pn i j x y z :
  find_child cs seg pn = Some (j, z) → i ≠ j →
  cs !! i = Some x → key y = key x →
  find_child (<[i := y]> cs) seg pn = Some (j, z).
Proof.
  rewrite !find_child_Some. intros (Hj & Hk & Hleast) Hne Hi Hy.
  split_and!.
  - by rewrite list_lookup_insert_ne.
  - done.
  - intros j' z' Hj' Hlt. destruct (decide (j' = i)) as [->|].
    + rewrite list_lookup_insert_eq in Hj' by eauto using lookup_lt_Some.
      injection Hj' as <-. rewrite Hy. eauto.
    + rewrite list_lookup_insert_ne in Hj' by done. eauto.
Qed.

Lemma keys_insert_same cs i x y :
  cs !! i = Some x → key y = key x → key <$> <[i := y]> cs = key <$> cs.
Proof.
  intros Hi Hy. rewrite list_fmap_insert, Hy.
  apply list_insert_id. by rewrite list_lookup_fmap, Hi.
Qed.

Lemma findOrCreateChild_spec node seg pn node' i child :
  findOrCreateChild node seg pn = (node', i, child) →
  find_child (children node') seg pn = Some (i, child) ∧
  node' = set_children node (children node') ∧
  (children node' = children node ∨
   find_child (children node) seg pn = None ∧
   children node' = (children node ++ [child])%list ∧
   child = RouteTree seg ∅ [] pn false None).
Proof.
  unfold findOrCreateChild.
  destruct (find_child (children node) seg pn) as [[j c]|] eqn:Hfind.
  - intros [= <- <- <-]. rewrite set_children_same. auto.
  - intros [= <- <- <-]. simpl. split_and!; [|done|by right].
    apply find_child_Some. split_and!.
    + by rewrite lookup_app_r, Nat.sub_diag.
    + done.
    + intros j y Hj Hlt. rewrite lookup_app_l in Hj by done.
      apply find_child_None in Hfind. intros Hk. apply Hfind.
      rewrite <- Hk. apply list_elem_of_fmap_2. by eapply list_elem_of_lookup_2.
Qed.

Lemma select_child_spec current seg cache current1 i child cache1 :
  select_child current seg cache = Some (current1, i, child, cache1) →
  ∃ child0,
    find_child (children current1) (segment_key seg).1 (segment_key seg).2
      = Some (i, child0) ∧
    current1 = set_children current (children current1) ∧
    (children current1 = children current ∨
     find_child (children current) (segment_key seg).1 (segment_key seg).2 = None ∧
     children current1 = (children current ++ [child0])%list ∧
     child0 = RouteTree (segment_key seg).1 ∅ [] (segment_key seg).2 false None) ∧
    child = set_rxPattern child0 (rxPattern child).
Proof.
  unfold select_child, segment_key.
  destruct (strings.HasPrefix seg ":").
  - destruct (strings.Cut _ _) as [[pn src] hasRx]; simpl.
    destruct (findOrCreateChild current EmptyString pn) as [[cur j] c0] eqn:Hfoc.
    apply findOrCreateChild_spec in Hfoc as (Hfind & Hcur & Hcs).
    destruct hasRx.
    + destruct (MustCompile src) as [compiled|]; simpl; [|done].
      destruct (LoadOrStore cache src compiled) as [rx cache2].
      intros [= <- <- <- <-]. exists c0. by destruct c0.
    + intros [= <- <- <- <-]. exists c0. by destruct c0.
  - destruct (findOrCreateChild current seg EmptyString) as [[cur j] c0] eqn:Hfoc.
    apply findOrCreateChild_spec in Hfoc as (Hfind & Hcur & Hcs).
    intros [= <- <- <- <-]. exists c0. by destruct c0.
Qed.

Lemma addRoute_from_cons seg rest method h current cache t' cache' :
  addRoute_from (seg :: rest) method h current cache = Some (t', cache') →
  (seg = "..." ∧ cache' = cache ∧
   t' = set_handlers (set_isWildcard current true)
                     (<[method := h]> (handlers current))) ∨
  (seg ≠ "..." ∧ ∃ current1 i child cache1 child2,
     select_child current seg cache = Some (current1, i, child, cache1) ∧
     addRoute_from rest method h (bind_if_last rest method h child) cache1
       = Some (child2, cache') ∧
     t' = set_children current1 (<[i := child2]> (children current1))).
Proof.
  simpl. destruct (String.eqb_spec seg "...") as [->|Hne].
  - intros [= <- <-]. by left.
  - destruct (select_child current seg cache) as [[[[current1 i] child] cache1]|]
      eqn:Hsel; simpl; [|done].
    destruct (addRoute_from rest _ _ _ _) as [[child2 cache2]|] eqn:Hrec;
      simpl; [|done].
    intros [= <- <-]. right. split; [done|]. by exists current1, i, child, cache1, child2.
Qed.

Lemma bind_if_last_fields rest method h child :
  key (bind_if_last rest method h child) = key child ∧
  children (bind_if_last rest method h child) = children child ∧
  isWildcard (bind_if_last rest method h child) = isWildcard child ∧
  rxPattern (bind_if_last rest method h child) = rxPattern child ∧
  (handlers (bind_if_last rest method h child) = handlers child ∨
   handlers (bind_if_last rest method h child) = <[method := h]> (handlers child)).
Proof. destruct rest; simpl; auto 10. Qed.

Lemma tree_ok_inv t : tree_ok t → node_ok t ∧ Forall tree_ok (children t).
Proof. by inversion 1. Qed.

Lemma tree_ok_fresh seg pn :
  seg = EmptyString ∨ pn = EmptyString →
  tree_ok (RouteTree seg (∅ : gmap string H) [] pn false (None : option Regexp)).
Proof.
  intros Hkind. constructor; [|by constructor].
  constructor; simpl; [done|constructor|done].
Qed.

Lemma segment_key_kind seg :
  (segment_key seg).1 = EmptyString ∨ (segment_key seg).2 = EmptyString.
Proof. unfold segment_key. destruct (strings.HasPrefix seg ":"); simpl; auto. Qed.

(** Every registration leaves the tree well formed, and leaves the key and
    the constraint of the node it starts from alone. *)
Lemma addRoute_from_ok segments : ∀ method h current cache t' cache',
  tree_ok current →
  addRoute_from segments method h current cache = Some (t', cache') →
  tree_ok t' ∧ key t' = key current ∧ rxPattern t' = rxPattern current.
Proof.
  induction segments as [|seg rest IH]; intros method h current cache t' cache' Hok Hadd.
  - simpl in Hadd. by simplify_eq.
  - apply addRoute_from_cons in Hadd
      as [(-> & -> & ->)|(Hne & current1 & i & child & cache1 & child2 & Hsel & Hrec & ->)].
    + split; [|done]. apply tree_ok_inv in Hok as [[Hkind Hkeys Hwild] Hcs].
      constructor; [|done]. constructor; simpl; [done..|].
      intros _. apply insert_non_empty.
    + apply select_child_spec in Hsel as (child0 & Hfind & Hcur & Hcs & Hchild).
      apply tree_ok_inv in Hok as [[Hkind Hkeys Hwild] Hsub].
      pose proof Hfind as (Hi & Hk & _)%find_child_Some.
      assert (Forall tree_ok (children current1)) as Hsub1.
      { destruct Hcs as [->|(_ & -> & ->)]; [done|].
        apply Forall_app. split; [done|]. constructor; [|done].
        apply tree_ok_fresh, segment_key_kind. }
      assert (NoDup (key <$> children current1)) as Hkeys1.
      { destruct Hcs as [->|(Hnone & Hcs & ->)]; [done|].
        rewrite Hcs, fmap_app. apply NoDup_app. split_and!; [done| |].
        - intros k Hk1 ?%list_elem_of_singleton. subst k.
          by apply find_child_None in Hnone.
        - apply NoDup_singleton. }
      assert (tree_ok child0) as Hok0.
      { eapply Forall_forall; [exact Hsub1|]. by eapply list_elem_of_lookup_2. }
      destruct (bind_if_last_fields rest method h child)
        as (Hbk & Hbc & Hbw & Hbr & Hbh).
      assert (key child = key child0 ∧ children child = children child0 ∧
              isWildcard child = isWildcard child0 ∧
              handlers child = handlers child0) as (Hck & Hcc & Hcw & Hch)
        by (by rewrite Hchild).
      assert (tree_ok (bind_if_last rest method h child)) as Hok1.
      { apply tree_ok_inv in Hok0 as [[Hkind0 Hkeys0 Hwild0] Hsub0].
        constructor; [|by rewrite Hbc, Hcc].
        constructor.
        - unfold key in Hbk, Hck. rewrite Hck in Hbk. by injection Hbk as -> ->.
        - by rewrite Hbc, Hcc.
        - rewrite Hbw, Hcw. intros Hw. destruct Hbh as [->| ->];
            [rewrite Hch; by apply Hwild0 | apply insert_non_empty]. }
      destruct (IH _ _ _ _ _ _ Hok1 Hrec) as (Hok2 & Hk2 & Hr2).
      assert (key child2 = key child0) as Hkey2.
      { by rewrite Hk2, Hbk. }
      rewrite Hcur. simpl. split_and!; [|done..].
      constructor; simpl.
      * constructor; simpl; [done| |done].
        by erewrite keys_insert_same.
      * apply Forall_insert; [done|done].
Qed.

Lemma LoadOrStore_spec cache src compiled rx cache' :
  cache_ok cache → MustCompile src = Some compiled →
  LoadOrStore cache src compiled = (rx, cache') →
  rx = compiled ∧ cache_ok cache'.
Proof.
  unfold LoadOrStore. intros Hok Hc.
  destruct (cache !! src) as [actual|] eqn:Hsrc; intros [= <- <-].
  - apply Hok in Hsrc. split; [congruence | done].
  - split; [done|]. intros src' rx' [[-> ->]|[_ ?]]%lookup_insert_Some; auto.
Qed.

Lemma select_child_cache current seg cache current1 i child cache1 :
  cache_ok cache →
  select_child current seg cache = Some (current1, i, child, cache1) →
  cache_ok cache1.
Proof.
  unfold select_child. intros Hok.
  destruct (strings.HasPrefix seg ":").
  - destruct (strings.Cut _ _) as [[pn src] hasRx].
    destruct (findOrCreateChild current EmptyString pn) as [[cur j] c0].
    destruct hasRx; [|by intros [= <- <- <- <-]].
    destruct (MustCompile src) as [compiled|] eqn:Hc; simpl; [|done].
    destruct (LoadOrStore cache src compiled) as [rx cache2] eqn:Hls.
    intros [= <- <- <- <-]. by eapply LoadOrStore_spec.
  - destruct (findOrCreateChild current seg EmptyString) as [[cur j] c0].
    by intros [= <- <- <- <-].
Qed.

Lemma addRoute_from_cache segments : ∀ method h current cache t' cache',
  cache_ok cache →
  addRoute_from segments method h current cache = Some (t', cache') →
  cache_ok cache'.
Proof.
  induction segments as [|seg rest IH]; intros method h current cache t' cache' Hok Hadd.
  - simpl in Hadd. by simplify_eq.
  - apply addRoute_from_cons in Hadd
      as [(-> & -> & ->)|(Hne & current1 & i & child & cache1 & child2 & Hsel & Hrec & ->)];
      [done|].
    eapply IH; [|exact Hrec]. by eapply select_child_cache.
Qed.

(** *** Setups *)


Lemma run_call_group (body : list (Setup H)) (m : Mux H Regexp) :
  run_call (CallGroup body) m = Group m (run body).
Proof. done. Qed.

Lemma run_cons (c : Setup H) (cs : list (Setup H)) (m : Mux H Regexp) :
  run (c :: cs) m = run_call c m ≫= run cs.
Proof. done. Qed.

Lemma addRoute_ok (m m' : Mux H Regexp) segments method h :
  mux_ok m → addRoute m segments method h = Some m' →
  mux_ok m' ∧ NotFound m' = NotFound m ∧ MethodNotAllowed m' = MethodNotAllowed m ∧
  Options m' = Options m ∧ middlewares m' = middlewares m.
Proof.
  unfold addRoute. intros [Ht Hc].
  destruct (addRoute_from _ _ _ _ _) as [[t' cache']|] eqn:Hadd; simpl; [|done].
  intros [= <-]. simpl. split_and!; try done.
  split; simpl.
  - by eapply addRoute_from_ok.
  - by eapply addRoute_from_cache.
Qed.

Lemma addRoutes_ok methods : ∀ (m m' : Mux H Regexp) segments h,
  mux_ok m → addRoutes m segments methods h = Some m' →
  mux_ok m' ∧ NotFound m' = NotFound m ∧ MethodNotAllowed m' = MethodNotAllowed m ∧
  Options m' = Options m ∧ middlewares m' = middlewares m.
Proof.
  induction methods as [|method methods IH]; intros m m' segments h Hok; simpl.
  - by intros [= <-].
  - destruct (addRoute m segments _ h) as [m1|] eqn:H1; simpl; [|done].
    apply addRoute_ok in H1 as (Hok1 & Hn & Hm & Ho & Hw); [|done].
    intros (? & ? & ? & ? & ?)%IH; [|done]. split_and!; congruence.
Qed.

Lemma Handle_ok (m m' : Mux H Regexp) pattern h methods :
  mux_ok m → Handle m pattern h methods = Some m' →
  mux_ok m' ∧ NotFound m' = NotFound m ∧ MethodNotAllowed m' = MethodNotAllowed m ∧
  Options m' = Options m ∧ middlewares m' = middlewares m.
Proof. unfold Handle. apply addRoutes_ok. Qed.

Lemma run_call_ok (c : Setup H) : ∀ m m' : Mux H Regexp,
  mux_ok m → run_call c m = Some m' →
  mux_ok m' ∧ (fallbacks_set m → fallbacks_set m').
Proof.
  induction c as [h|h|h|mw|pattern h methods|body IH] using Setup_nested_ind;
    intros m m' Hok.
  - intros [= <-]. split; [done|]. intros (? & ? & ?). by split_and!.
  - intros [= <-]. split; [done|]. intros (? & ? & ?). by split_and!.
  - intros [= <-]. split; [done|]. intros (? & ? & ?). by split_and!.
  - intros [= <-]. done.
  - simpl. intros (? & Hn & Hm & Ho & _)%Handle_ok; [|done].
    split; [done|]. unfold fallbacks_set. by rewrite Hn, Hm, Ho.
  - rewrite run_call_group. unfold Group.
    destruct (run body _) as [sub|] eqn:Hrun; simpl; [|done].
    intros [= <-]. split; [|done]. destruct Hok as [Ht Hc]. split; [|done]. simpl.
    assert (∀ (calls : list (Setup H)) (m1 m2 : Mux H Regexp), Forall (λ c, ∀ m m' : Mux H Regexp,
              mux_ok m → run_call c m = Some m' →
              mux_ok m' ∧ (fallbacks_set m → fallbacks_set m')) calls →
            mux_ok m1 → run calls m1 = Some m2 → mux_ok m2) as Hbody.
    { clear. induction calls as [|c cs IHcs]; intros m1 m2 Hall Hok1.
      - by intros [= <-].
      - apply Forall_cons in Hall as [Hc Hall]. rewrite run_cons.
        destruct (run_call c m1) as [m1'|] eqn:H1; simpl; [|done].
        apply Hc in H1 as [? _]; [|done]. by apply IHcs. }
    eapply Hbody in Hrun as [? _]; [done|done|]. split; [done|].
    intros ? ? Hl. simpl in Hl. by rewrite lookup_empty in Hl.
Qed.

Lemma run_ok (calls : list (Setup H)) : ∀ m m' : Mux H Regexp,
  mux_ok m → run calls m = Some m' →
  mux_ok m' ∧ (fallbacks_set m → fallbacks_set m').
Proof.
  induction calls as [|c cs IH]; intros m m' Hok.
  - by intros [= <-].
  - rewrite run_cons. destruct (run_call c m) as [m1|] eqn:H1; simpl; [|done].
    apply run_call_ok in H1 as [Hok1 Hf1]; [|done].
    intros [Hok' Hf']%IH; [|done]. auto.
Qed.

Lemma New_ok `{DefaultHandlers H} : mux_ok (New : Mux H Regexp) ∧ fallbacks_set (New : Mux H Regexp).
Proof.
  split.
  - split; simpl.
    + apply tree_ok_fresh. by left.
    + intros ? ? Hl. simpl in Hl. by rewrite lookup_empty in Hl.
  - by split_and!.
Qed.

(** A router that has been set up is well formed and has its fallbacks. *)
Lemma setup_ok `{DefaultHandlers H} (setup : list (Setup H)) (m : Mux H Regexp) :
  run setup New = Some m → mux_ok m ∧ fallbacks_set m.
Proof.
  intros Hrun. destruct New_ok as [Hok Hf].
  apply run_ok in Hrun as [? ?]; auto.
Qed.

Lemma tree_ok_node_of t n : tree_ok t → node_of t n → node_ok n.
Proof.
  intros Hok Hn. induction Hn as [t|t c n Hc Hn IH].
  - by apply tree_ok_inv in Hok as [? _].
  - apply IH. apply tree_ok_inv in Hok as [_ Hcs].
    by eapply Forall_forall.
Qed.

End registration.

(** ** Serving a router that has been set up *)

Section served.
Context {H Regexp : Type} `{!RegexpEngine Regexp} `{!UnicodeTables} `{MapRange} `{DefaultHandlers H}.
Implicit Types (t node : routeTree H Regexp) (m : Mux H Regexp) (h : H).

(** On a well-formed tree a match always comes with at least one binding. *)
Lemma findHandler_bound segments : ∀ node params hs ps al,
  tree_ok node →
  findHandler segments node params = Some (hs, ps, al) → hs ≠ ∅.
Proof.
  induction segments as [|seg rest IH]; intros node params hs ps al Hok; simpl.
  - destruct (0 <? size (handlers node))%nat eqn:Hsize; [|done].
    intros [= <- <- <-]. apply Nat.ltb_lt in Hsize.
    apply map_size_non_empty_iff. lia.
  - apply tree_ok_inv in Hok as [[_ _ Hwild] Hcs].
    destruct (isWildcard node); [intros [= <- <- <-]; by apply Hwild|].
    assert (∀ c, c ∈ children node → tree_ok c) as Hsub
      by (by apply Forall_forall).
    destruct (first_hit _ (children node)) as [r|] eqn:Hlit.
    + intros [= ->]. apply first_hit_Some in Hlit as (c & Hin & Hc).
      destruct (String.eqb (segment c) seg); [eauto | done].
    + intros (c & Hin & Hc)%first_hit_Some.
      destruct (negb (String.eqb (paramName c) EmptyString)); [|done].
      destruct (rxPattern c) as [rx|]; [|eauto].
      destruct (negb (MatchString rx seg)); [done | eauto].
Qed.

(** C3.  Request handling is total, and for every method and path it ends
    in exactly one of four ways: the handler bound to the method at the
    matched node is dispatched; or no node matches and the not-found
    fallback answers; or a node matches without a binding for the method
    and the method-not-allowed fallback answers; or, in that last case with
    method OPTIONS, the preflight fallback answers.  Not-found is only ever
    the answer when no node matches the path. *)
Theorem ServeHTTP_total (setup : list (Setup H)) m (method path : string) :
  run setup New = Some m →
  let found :=
    findHandler (strings.Split (strings.Trim path "/") "/") (root m) ∅ in
  match ServeHTTP m method path with
  | Dispatch h ctx =>
      ∃ hs al, found = Some (hs, ctx, al) ∧ hs !! method = Some h
  | NotFoundResponse h =>
      found = None ∧ Some h = wrap m <$> NotFound m
  | MethodNotAllowedResponse allow h =>
      method ≠ MethodOptions ∧ Some h = wrap m <$> MethodNotAllowed m ∧
      ∃ hs ps al, found = Some (hs, ps, al) ∧ hs ≠ ∅ ∧ hs !! method = None
  | Preflight allow h =>
      method = MethodOptions ∧ Some h = wrap m <$> Options m ∧
      ∃ hs ps al, found = Some (hs, ps, al) ∧ hs ≠ ∅ ∧ hs !! method = None
  | NilHandlerPanic => False
  end.
Proof.
  intros [[Htree _] ([nf Hnf] & [na Hna] & [op Hop])]%setup_ok found.
  rewrite ServeHTTP_cases. fold found.
  destruct found as [[[hs ps] al]|] eqn:Hfound; subst found.
  - destruct (hs !! method) as [h|] eqn:Hm; [by exists hs, al|].
    pose proof (findHandler_bound _ _ _ _ _ _ Htree Hfound) as Hne.
    destruct (decide (hs = ∅)) as [?|_]; [done|]. simpl.
    destruct (String.eqb_spec method MethodOptions) as [->|Hmethod].
    + rewrite Hop. simpl. split_and!; [done..|]. by exists hs, ps, al.
    + rewrite Hna. simpl. split_and!; [done..|]. by exists hs, ps, al.
  - rewrite Hnf. done.
Qed.

(** C7.  When the path matches a node and the request method is not bound
    there, the response carries an [Allow] header: the methods bound at the
    matched node, each once and in the order the map iteration gave them,
    then OPTIONS, joined by a comma and a space. *)
Theorem Allow_lists_bound_methods (setup : list (Setup H)) m (method path : string)
    (hs : gmap string H) ps al :
  run setup New = Some m →
  findHandler (strings.Split (strings.Trim path "/") "/") (root m) ∅
    = Some (hs, ps, al) →
  hs !! method = None →
  ∃ bound allow h,
    bound ≡ₚ (map_to_list hs).*1 ∧
    allow = strings.Join (bound ++ [MethodOptions]) ", " ∧
    (ServeHTTP m method path = MethodNotAllowedResponse allow h ∨
     ServeHTTP m method path = Preflight allow h).
Proof.
  intros [[Htree _] (_ & [na Hna] & [op Hop])]%setup_ok Hfound Hm.
  rewrite ServeHTTP_cases, Hfound, Hm.
  pose proof (findHandler_bound _ _ _ _ _ _ Htree Hfound) as Hne.
  destruct (decide (hs = ∅)) as [?|_]; [done|]. simpl.
  exists (range_keys (makeAllowedMethodsMap hs)).
  destruct (String.eqb method MethodOptions).
  - rewrite Hop. simpl. eexists _, _. split_and!; [|done|by right].
    rewrite range_keys_perm. apply allowed_keys.
  - rewrite Hna. simpl. eexists _, _. split_and!; [|done|by left].
    rewrite range_keys_perm. apply allowed_keys.
Qed.

(** C6, as the code has it.  An OPTIONS request for a path that matches a
    node is never answered by method-not-allowed: when OPTIONS is bound at
    the matched node the bound handler is dispatched, and otherwise the
    router's preflight handler answers. *)
Theorem OPTIONS_is_dispatched_or_preflight (setup : list (Setup H)) m (path : string)
    (hs : gmap string H) ps al :
  run setup New = Some m →
  findHandler (strings.Split (strings.Trim path "/") "/") (root m) ∅
    = Some (hs, ps, al) →
  match hs !! MethodOptions with
  | Some h => ServeHTTP m MethodOptions path = Dispatch h ps
  | None =>
      ∃ allow op, Options m = Some op ∧
        ServeHTTP m MethodOptions path = Preflight allow (wrap m op)
  end.
Proof.
  intros [[Htree _] (_ & _ & [op Hop])]%setup_ok Hfound.
  rewrite ServeHTTP_cases, Hfound.
  destruct (hs !! MethodOptions) as [h|]; [done|].
  pose proof (findHandler_bound _ _ _ _ _ _ Htree Hfound) as Hne.
  destruct (decide (hs = ∅)) as [?|_]; [done|]. simpl.
  rewrite Hop. simpl. by eexists _, op.
Qed.

End served.

(** ** Matching on a well-formed tree *)

Section matching.
Context {H Regexp : Type} `{!RegexpEngine Regexp} `{!UnicodeTables}.
Implicit Types (t node c : routeTree H Regexp) (cs : list (routeTree H Regexp)).

Lemma first_hit_only {A B} (f : A → option B) (l : list A) :
  ∀ i a, l !! i = Some a →
  (∀ j x, l !! j = Some x → j ≠ i → f x = None) →
  first_hit f l = f a.
Proof.
  induction l as [|y l IH]; intros i a Hi Hothers; [done|]. simpl.
  destruct i as [|i]; simpl in Hi.
  - injection Hi as ->. destruct (f a) as [r|] eqn:Hc; [done|].
    apply first_hit_None. intros x [j Hj]%list_elem_of_lookup_1.
    by apply (Hothers (S j)).
  - rewrite (Hothers 0 y) by done.
    apply (IH i a Hi). intros j x Hj Hne. apply (Hothers (S j)); [done|lia].
Qed.

(** For a segment that is not empty, at most one child carries its text. *)
Lemma literal_child_only t seg i c :
  tree_ok t → seg ≠ EmptyString →
  find_child (children t) seg EmptyString = Some (i, c) →
  ∀ j x, children t !! j = Some x → j ≠ i → segment x ≠ seg.
Proof.
  intros [[_ Hkeys _] Hsub]%tree_ok_inv Hseg (Hi & Hk & _)%find_child_Some
    j x Hj Hne Hx.
  assert (tree_ok x) as [[Hkind _ _] _]%tree_ok_inv.
  { eapply Forall_forall; [exact Hsub|]. by eapply list_elem_of_lookup_2. }
  destruct Hkind as [Hempty|Hpn]; [congruence|].
  apply Hne. eapply NoDup_lookup; [exact Hkeys|..].
  - by rewrite list_lookup_fmap, Hj.
  - rewrite list_lookup_fmap, Hi. simpl. rewrite Hk. unfold key. by rewrite Hx, Hpn.
Qed.

(** The literal loop of [findHandler] on a non-empty segment: the one
    child that carries the text decides. *)
Lemma findHandler_literal t seg rest params i c r :
  tree_ok t → isWildcard t = false → seg ≠ EmptyString →
  find_child (children t) seg EmptyString = Some (i, c) →
  findHandler rest c params = Some r →
  findHandler (seg :: rest) t params = Some r.
Proof.
  intros Hok Hwild Hseg Hfind Hc. simpl. rewrite Hwild.
  pose proof Hfind as (Hi & Hk & _)%find_child_Some.
  rewrite (first_hit_only _ _ i c Hi).
  - injection Hk as Hs _. rewrite Hs, String.eqb_refl. by rewrite Hc.
  - intros j x Hj Hne.
    pose proof (literal_child_only _ _ _ _ Hok Hseg Hfind j x Hj Hne) as Hx.
    by apply String.eqb_neq in Hx as ->.
Qed.

Lemma literal_child_Some t seg c :
  literal_child t seg = Some c ↔
  ∃ i, find_child (children t) seg EmptyString = Some (i, c).
Proof.
  unfold literal_child. split.
  - intros ([i c'] & Hf & ->)%fmap_Some. by exists i.
  - intros [i ->]. done.
Qed.

End matching.

(** ** Keys and bindings under registration *)

Section registration_keys.
Context {H Regexp : Type} `{!RegexpEngine Regexp} `{!UnicodeTables}.
Implicit Types (t node c : routeTree H Regexp) (cs : list (routeTree H Regexp)) (m : Mux H Regexp).

Lemma addRoute_from_key segments method (h : H) current cache t' cache' :
  addRoute_from segments method h current cache = Some (t', cache') →
  key t' = key current ∧ rxPattern t' = rxPattern current.
Proof.
  destruct segments as [|seg rest]; [by intros [= <- <-]|].
  intros [(-> & -> & ->)|(Hne & current1 & i & child & cache1 & child2 & Hsel & Hrec & ->)]
    %addRoute_from_cons; [done|].
  apply select_child_spec in Hsel as (child0 & _ & -> & _). done.
Qed.

Lemma segment_key_literal seg :
  strings.HasPrefix seg ":" = false → segment_key seg = (seg, EmptyString).
Proof. unfold segment_key. by intros ->. Qed.

Lemma is_Some_insert_keep (hs : gmap string H) k k' (h : H) :
  is_Some (hs !! k) → is_Some (<[k' := h]> hs !! k).
Proof.
  intros Hk. destruct (decide (k' = k)) as [->|Hne].
  - rewrite lookup_insert_eq. eauto.
  - by rewrite lookup_insert_ne.
Qed.

End registration_keys.

(** ** The route tree after any setup *)

Section tree_claims.
Context {H Regexp : Type} `{!RegexpEngine Regexp} `{!UnicodeTables} `{MapRange} `{DefaultHandlers H}.
Implicit Types (t node c : routeTree H Regexp) (m : Mux H Regexp) (h : H).

(** C4, as the code has it.  A registration whose parameter segment
    carries a constraint sets the constraint of the parameter node to the
    pattern it compiled, whatever constraint the node had; a registration
    without a constraint leaves the node's constraint as it was. *)
Theorem constraint_of_latest_registration (current : routeTree H Regexp)
    (cache cache' : gmap string Regexp) (seg : string) (rest : list string)
    (method : string) (h : H) (t' : routeTree H Regexp) (pn src : string) (hasRx : bool) :
  cache_ok cache →
  strings.HasPrefix seg ":" = true →
  strings.Cut (strings.TrimPrefix seg ":") "|" = (pn, src, hasRx) →
  addRoute_from (seg :: rest) method h current cache = Some (t', cache') →
  ∃ i c', find_child (children t') EmptyString pn = Some (i, c') ∧
    rxPattern c' =
      if hasRx then MustCompile src
      else match find_child (children current) EmptyString pn with
           | Some (_, c) => rxPattern c
           | None => None
           end.
Proof.
  intros Hcache Hcolon Hcut Hadd.
  apply addRoute_from_cons in Hadd
    as [(-> & _)|(_ & current1 & i & child & cache1 & child2 & Hsel & Hrec & ->)];
    [done|].
  pose proof Hrec as [Hkey Hrx]%addRoute_from_key.
  destruct (bind_if_last_fields rest method h child) as (Hbk & _ & _ & Hbr & _).
  rewrite Hbk in Hkey. rewrite Hbr in Hrx.
  unfold select_child in Hsel. rewrite Hcolon, Hcut in Hsel.
  destruct (findOrCreateChild current EmptyString pn) as [[cur j] c0] eqn:Hfoc.
  pose proof Hfoc as (Hfind & _ & _)%findOrCreateChild_spec.
  assert (rxPattern c0 = match find_child (children current) EmptyString pn with
                         | Some (_, c) => rxPattern c
                         | None => None
                         end) as Hold.
  { unfold findOrCreateChild in Hfoc.
    destruct (find_child (children current) EmptyString pn) as [[j0 c]|];
      by injection Hfoc as <- <- <-. }
  exists i, child2. destruct hasRx.
  - destruct (MustCompile src) as [compiled|] eqn:Hc; simpl in Hsel; [|done].
    destruct (LoadOrStore cache src compiled) as [rx cache2] eqn:Hls.
    injection Hsel as <- <- <- <-.
    eapply LoadOrStore_spec in Hls as [-> _]; [|done..].
    split; [|done]. simpl. by eapply find_child_insert_same.
  - injection Hsel as <- <- <- <-.
    split; [|congruence]. simpl. by eapply find_child_insert_same.
Qed.

Lemma wrap_after_Use (batches : list (list (H → H))) h :
  wrap (foldl Use (New : Mux H Regexp) batches) h
  = foldr (λ d inner, d inner) h (concat batches).
Proof. by rewrite wrap_foldr, Use_all. Qed.

(** The literal loop comes first: at a node that is not a wildcard
    terminal, when some child carries the text of the segment and has a
    matching subtree, the result is that of the first such child, and no
    parameter child is tried. *)
Lemma findHandler_literal_loop_first node seg rest params :
  isWildcard node = false →
  (∃ c r, c ∈ children node ∧ segment c = seg ∧
          findHandler rest c params = Some r) →
  ∃ i c r, children node !! i = Some c ∧ segment c = seg ∧
    findHandler rest c params = Some r ∧
    findHandler (seg :: rest) node params = Some r ∧
    ∀ j x, children node !! j = Some x → (j < i)%nat → segment x = seg →
           findHandler rest x params = None.
Proof.
  intros Hwild (c & r & Hin & Hseg & Hc).
  destruct (first_hit_first
              (λ child, if String.eqb (segment child) seg
                        then findHandler rest child params else None)
              (children node)) as (i & c' & r' & Hi & Hc' & Hhit & Hleast).
  { exists c. split; [done|]. rewrite Hseg, String.eqb_refl. by rewrite Hc. }
  destruct (String.eqb_spec (segment c') seg) as [Hs|]; [|done].
  exists i, c', r'. split_and!; try done.
  - simpl. by rewrite Hwild, Hhit.
  - intros j x Hj Hlt Hx. specialize (Hleast j x Hj Hlt).
    by rewrite Hx, String.eqb_refl in Hleast.
Qed.

(** On an empty segment the literal loop enters a parameter child, whose
    segment text is empty: its parameter name is not looked at, its
    constraint is not checked and nothing is captured. *)
Lemma empty_segment_enters_first_child node c cs rest params r :
  isWildcard node = false → children node = c :: cs →
  segment c = EmptyString →
  findHandler rest c params = Some r →
  findHandler (EmptyString :: rest) node params = Some r.
Proof.
  intros Hwild Hcs Hseg Hc. simpl. rewrite Hwild, Hcs. simpl.
  by rewrite Hseg, Hc.
Qed.

(** A constrained parameter child, alone under its parent, is entered for
    a non-empty segment exactly when the pattern finds a match in it. *)
Lemma constrained_child_search node c rx seg rest params :
  isWildcard node = false → children node = [c] →
  segment c = EmptyString → paramName c ≠ EmptyString →
  rxPattern c = Some rx → seg ≠ EmptyString →
  findHandler (seg :: rest) node params =
    if MatchString rx seg
    then findHandler rest c (<[paramName c := seg]> params)
    else None.
Proof.
  intros Hwild Hcs Hsegc Hpn Hrx Hseg. simpl. rewrite Hwild, Hcs. simpl.
  rewrite Hsegc, Hrx.
  assert (String.eqb EmptyString seg = false) as ->
    by (apply String.eqb_neq; congruence).
  apply String.eqb_neq in Hpn as ->. simpl.
  unfold copyParams. by destruct (MatchString rx seg), (findHandler _ _ _).
Qed.

End tree_claims.

(** ** The chain at work *)

Lemma observers_log (ids : list string) (h : Demo.Logging) : ∀ log,
  foldr (λ d inner, d inner) h (Demo.observe <$> ids) log = h (log ++ ids)%list.
Proof.
  induction ids as [|id ids IH]; intros log; simpl.
  - by rewrite app_nil_r.
  - unfold Demo.observe at 1. rewrite IH. by rewrite <- app_assoc.
Qed.

(** C8.  The chain applied to a handler [h] after the decorators
    [d1, ..., dn] were registered with [Use], in that order and in any
    grouping into calls, is [d1 (d2 (... (dn h)))]: the loop of [wrap]
    starts from [h] and goes through the decorators from the last to the
    first.  So when the wrapped handler runs, the first decorator sees the
    request first and the handler last: decorators that each log their name
    and call on leave their names in the log in registration order. *)
Theorem decorators_run_in_registration_order (Regexp : Type) :
  (∀ (H : Type) `{!DefaultHandlers H} (batches : list (list (H → H))) (h : H),
     wrap (foldl Use (New : Mux H Regexp) batches) h
     = foldr (λ d inner, d inner) h (concat batches))
  ∧ (∀ `{!DefaultHandlers Demo.Logging} (ids : list string) (h : Demo.Logging)
       (log : list string),
     wrap (foldl Use (New : Mux Demo.Logging Regexp) [Demo.observe <$> ids]) h log
     = h (log ++ ids)%list).
Proof.
  split.
  - intros. apply wrap_after_Use.
  - intros. rewrite wrap_after_Use. simpl. rewrite app_nil_r. apply observers_log.
Qed.

(** * Further properties of the code *)

(** ** Paths and patterns *)

Section paths.

Lemma TrimRight_snoc (s : string) (cut : ascii) :
  strings.TrimRight (s ++ String cut EmptyString) cut = strings.TrimRight s cut.
Proof.
  induction s as [|c s IH]; simpl.
  - by rewrite Ascii.eqb_refl.
  - by rewrite IH.
Qed.

Lemma Trim_leading (s : string) (cut : ascii) :
  strings.Trim (String cut s) cut = strings.Trim s cut.
Proof. unfold strings.Trim. simpl. by rewrite Ascii.eqb_refl. Qed.

Lemma Trim_trailing (s : string) (cut : ascii) :
  strings.Trim (s ++ String cut EmptyString) cut = strings.Trim s cut.
Proof.
  unfold strings.Trim. induction s as [|c s IH]; simpl.
  - by rewrite Ascii.eqb_refl.
  - destruct (Ascii.eqb c cut); [done|].
    change (String c (s ++ String cut EmptyString))
      with (String c s ++ String cut EmptyString).
    apply TrimRight_snoc.
Qed.

Lemma Split_nonempty (s : string) (sep : ascii) : strings.Split s sep ≠ [].
Proof.
  destruct s as [|c s]; simpl; [done|].
  destruct (Ascii.eqb c sep); [done|]. by destruct (strings.Split s sep).
Qed.

Lemma Join_Split (s : string) (sep : ascii) :
  strings.Join (strings.Split s sep) (String sep EmptyString) = s.
Proof.
  induction s as [|c s IH]; [done|]. simpl.
  destruct (Ascii.eqb_spec c sep) as [->|Hne].
  - pose proof (Split_nonempty s sep) as Hs.
    destruct (strings.Split s sep) as [|x xs]; [done|].
    change (strings.Join (EmptyString :: x :: xs) (String sep EmptyString))
      with (String sep (strings.Join (x :: xs) (String sep EmptyString))).
    by rewrite IH.
  - destruct (strings.Split s sep) as [|x xs] eqn:Hs.
    + by apply Split_nonempty in Hs.
    + rewrite <- IH. by destruct xs.
Qed.

End paths.

(** ** Requests and registrations at the edges *)

Section edges.
Context {H Regexp : Type} `{!RegexpEngine Regexp} `{!UnicodeTables} `{MapRange}.
Implicit Types (t node current : routeTree H Regexp) (m : Mux H Regexp) (h : H).
Implicit Types (cache : gmap string Regexp).

(** X1.  Slashes around a request path and around a pattern do not matter:
    one more leading or trailing slash gives the same response and the same
    registration. *)
Theorem surrounding_slashes_ignored m (method path pattern : string) h
    (methods : list string) :
  ServeHTTP m method (String "/" path) = ServeHTTP m method path ∧
  ServeHTTP m method (path ++ "/") = ServeHTTP m method path ∧
  Handle m (String "/" pattern) h methods = Handle m pattern h methods ∧
  Handle m (pattern ++ "/") h methods = Handle m pattern h methods.
Proof.
  unfold ServeHTTP, Handle.
  by rewrite !Trim_leading, !(Trim_trailing _ "/").
Qed.

(** X2.  A router whose tree has no route yet answers every request with
    its not-found handler, inside the decorator chain. *)
Theorem no_routes_not_found m (method path : string) nf :
  children (root m) = [] → isWildcard (root m) = false →
  NotFound m = Some nf →
  ServeHTTP m method path = NotFoundResponse (wrap m nf).
Proof.
  intros Hcs Hwild Hnf. rewrite ServeHTTP_cases.
  pose proof (Split_nonempty (strings.Trim path "/") "/") as Hsegs.
  destruct (strings.Split _ _) as [|seg rest]; [done|].
  simpl. rewrite Hwild, Hcs. simpl. by rewrite Hnf.
Qed.

(** X3.  [Use] leaves the routes registered before it alone: a request
    that was dispatched to a handler is dispatched to the same handler,
    with the same parameters, after more decorators are added. *)
Theorem Use_keeps_dispatch m (mw : list (H → H)) (method path : string) h ctx :
  ServeHTTP m method path = Dispatch h ctx →
  ServeHTTP (Use m mw) method path = Dispatch h ctx.
Proof.
  rewrite !ServeHTTP_cases. simpl.
  destruct (findHandler _ _ _) as [[[hs ps] al]|]; [|by destruct (NotFound m)].
  destruct (hs !! method); [done|].
  unfold serve_fallback. simpl.
  by repeat case_match.
Qed.

(** X4.  What follows the wildcard marker in a pattern is ignored: the
    registration is the one of the pattern cut after the marker. *)
Theorem segments_after_marker_ignored (prefix ignored : list string)
    (method : string) h : ∀ current cache,
  addRoute_from (prefix ++ "..." :: ignored) method h current cache
  = addRoute_from (prefix ++ ["..."]) method h current cache.
Proof.
  induction prefix as [|seg prefix IH]; intros current cache; [done|].
  simpl. destruct (String.eqb seg "..."); [done|].
  destruct (select_child current seg cache) as [[[[current1 i] child] cache1]|];
    simpl; [|done].
  assert (∀ tail, bind_if_last (prefix ++ "..." :: tail) method h child = child) as Hb
    by (intros tail; by destruct prefix).
  by rewrite (Hb ignored), (Hb []), IH.
Qed.

(** The walk of [addRoute] panics exactly when one of the constraints it
    reaches does not compile. *)
Lemma addRoute_from_None (segments : list string)
    (method : string) h : ∀ current cache,
  addRoute_from segments method h current cache = None
  ↔ constraints_compile (Regexp := Regexp) segments = false.
Proof.
  induction segments as [|seg rest IH]; intros current cache; simpl; [done|].
  destruct (String.eqb seg "..."); [done|].
  assert (∀ c k i cur,
    (addRoute_from rest method h c k
       ≫= λ '(child, cache), Some (set_children cur (<[i:=child]> (children cur)), cache))
    = None ↔ constraints_compile (Regexp := Regexp) rest = false) as Hrest.
  { intros c k i cur. rewrite <- (IH c k).
    by destruct (addRoute_from rest method h c k) as [[? ?]|]. }
  unfold select_child.
  destruct (strings.HasPrefix seg ":").
  - destruct (strings.Cut _ _) as [[pn src] hasRx].
    destruct (findOrCreateChild current EmptyString pn) as [[cur j] c0].
    destruct hasRx; [|apply Hrest].
    destruct (MustCompile src) as [compiled|]; simpl; [|done].
    destruct (LoadOrStore cache src compiled) as [rx cache2]. apply Hrest.
  - destruct (findOrCreateChild current seg EmptyString) as [[cur j] c0].
    apply Hrest.
Qed.

End edges.

(** ** The bindings a registration makes *)

Section bindings.
Context {H Regexp : Type} `{!RegexpEngine Regexp} `{!UnicodeTables}.
Implicit Types (t node current child : routeTree H Regexp) (cs : list (routeTree H Regexp)).
Implicit Types (m : Mux H Regexp) (h : H) (cache : gmap string Regexp).

Lemma find_child_insert_None cs seg pn i x y :
  find_child cs seg pn = None → cs !! i = Some x → key y = key x →
  find_child (<[i := y]> cs) seg pn = None.
Proof.
  rewrite !find_child_None. intros Hnone Hi Hy.
  by erewrite keys_insert_same.
Qed.

Lemma route_handlers_nil t : route_handlers t [] = handlers t.
Proof. done. Qed.

Lemma route_handlers_marker t rest : route_handlers t ("..." :: rest) = handlers t.
Proof. done. Qed.

Lemma route_handlers_cons t seg rest :
  seg ≠ "..." →
  route_handlers t (seg :: rest) =
    match find_child (children t) (segment_key seg).1 (segment_key seg).2 with
    | Some (_, c) => route_handlers c rest
    | None => ∅
    end.
Proof.
  intros Hne. unfold route_handlers. simpl.
  apply String.eqb_neq in Hne as ->.
  by destruct (find_child _ _ _) as [[j c]|].
Qed.

Lemma route_handlers_fresh seg pn rx pattern :
  pattern ≠ [] →
  route_handlers (RouteTree seg (∅ : gmap string H) [] pn false rx
                  : routeTree H Regexp) pattern = ∅.
Proof.
  destruct pattern as [|s rest]; [done|]. intros _.
  destruct (String.eqb_spec s "...") as [->|Hne]; [done|].
  by rewrite route_handlers_cons.
Qed.

(** Nodes with the same children and the same bindings have the same
    bindings along every pattern. *)
Lemma route_handlers_same (a b : routeTree H Regexp) pattern :
  children a = children b → handlers a = handlers b →
  route_handlers a pattern = route_handlers b pattern.
Proof.
  intros Hc Hh. destruct pattern as [|s rest]; [done|].
  destruct (String.eqb_spec s "...") as [->|Hne]; [done|].
  by rewrite !route_handlers_cons, Hc.
Qed.

Lemma route_handlers_same_children (a b : routeTree H Regexp) pattern k :
  children a = children b → handlers a !! k = handlers b !! k →
  route_handlers a pattern !! k = route_handlers b pattern !! k.
Proof.
  intros Hc Hh. destruct pattern as [|s rest]; [done|].
  destruct (String.eqb_spec s "...") as [->|Hne]; [done|].
  by rewrite !route_handlers_cons, Hc.
Qed.

(** Finding or creating the child of a segment changes no bindings. *)
Lemma select_child_route_handlers current seg cache current1 i child cache1 pattern :
  select_child current seg cache = Some (current1, i, child, cache1) →
  route_handlers current1 pattern = route_handlers current pattern.
Proof.
  intros (child0 & Hfind & Hcur & Hcs & Hchild)%select_child_spec.
  destruct pattern as [|s rest]; [by rewrite Hcur|].
  destruct (String.eqb_spec s "...") as [->|Hne]; [by rewrite Hcur|].
  rewrite !route_handlers_cons by done.
  destruct Hcs as [->|(Hnone & Hcs & Hfresh)]; [done|]. rewrite Hcs.
  destruct (find_child (children current) (segment_key s).1 (segment_key s).2)
    as [[j c]|] eqn:Hj.
  - unfold find_child in *. by erewrite list_find_app_l.
  - destruct (find_child (children current ++ [child0]) _ _) as [[j' c']|] eqn:Hj';
      [|done].
    apply find_child_Some in Hj' as (Hl & Hk & _).
    apply find_child_None in Hj.
    apply lookup_app_Some in Hl as [Hl|[_ Hl]].
    + destruct Hj. rewrite <- Hk. apply list_elem_of_fmap_2.
      by eapply list_elem_of_lookup_2.
    + apply list_lookup_singleton_Some in Hl as [_ <-]. rewrite Hfresh.
      destruct rest as [|s' rest']; [done|]. by rewrite route_handlers_fresh.
Qed.

(** After a registration the pattern's node holds the bindings it had,
    with the method bound to the handler. *)
Lemma addRoute_from_binds pattern : ∀ method h t cache t' cache',
  pattern ≠ [] →
  addRoute_from pattern method h t cache = Some (t', cache') →
  route_handlers t' pattern = <[method := h]> (route_handlers t pattern).
Proof.
  induction pattern as [|seg rest IH]; intros method h t cache t' cache' Hne Hadd;
    [done|].
  apply addRoute_from_cons in Hadd
    as [(-> & -> & ->)|(Hseg & current1 & i & child & cache1 & child2 & Hsel & Hrec & ->)];
    [done|].
  rewrite <- (select_child_route_handlers _ _ _ _ _ _ _ (seg :: rest) Hsel).
  apply select_child_spec in Hsel as (child0 & Hfind & Hcur & Hcs & Hchild).
  pose proof Hrec as [Hkey _]%addRoute_from_key.
  destruct (bind_if_last_fields rest method h child) as (Hbk & Hbc & _ & _ & Hbh).
  assert (key child = key child0 ∧ children child = children child0 ∧
          handlers child = handlers child0) as (Hck & Hcc & Hch)
    by (by rewrite Hchild).
  rewrite !route_handlers_cons by done. simpl. rewrite Hfind.
  erewrite find_child_insert_same; [|done|by rewrite Hkey, Hbk].
  destruct rest as [|s rest].
  - simpl in Hrec. injection Hrec as <- <-. simpl. by rewrite Hch.
  - rewrite (IH _ _ _ _ _ _ ltac:(done) Hrec). f_equal.
    apply route_handlers_same; simpl; congruence.
Qed.

(** A registration changes no binding of another method, at any node. *)
Lemma addRoute_from_other_methods segments : ∀ method h t cache t' cache' pattern k,
  addRoute_from segments method h t cache = Some (t', cache') →
  k ≠ method →
  route_handlers t' pattern !! k = route_handlers t pattern !! k.
Proof.
  induction segments as [|seg rest IH];
    intros method h t cache t' cache' pattern k Hadd Hk.
  - simpl in Hadd. by simplify_eq.
  - apply addRoute_from_cons in Hadd
      as [(-> & -> & ->)|(Hseg & current1 & i & child & cache1 & child2 & Hsel & Hrec & ->)].
    + apply route_handlers_same_children; simpl; [done|].
      by rewrite lookup_insert_ne.
    + rewrite <- (select_child_route_handlers _ _ _ _ _ _ _ pattern Hsel).
      apply select_child_spec in Hsel as (child0 & Hfind & Hcur & Hcs & Hchild).
      pose proof Hrec as [Hkey _]%addRoute_from_key.
      destruct (bind_if_last_fields rest method h child) as (Hbk & Hbc & _ & _ & Hbh).
      assert (key child = key child0 ∧ children child = children child0 ∧
              handlers child = handlers child0) as (Hck & Hcc & Hch)
        by (by rewrite Hchild).
      destruct pattern as [|s pattern]; [done|].
      destruct (String.eqb_spec s "...") as [->|Hs]; [done|].
      rewrite !route_handlers_cons by done. simpl.
      pose proof Hfind as (Hi & _)%find_child_Some.
      destruct (find_child (children current1) (segment_key s).1 (segment_key s).2)
        as [[j c]|] eqn:Hj.
      * destruct (decide (j = i)) as [->|Hji].
        -- assert (c = child0) as ->.
           { apply find_child_Some in Hj as (Hj & _). congruence. }
           erewrite find_child_insert_same; [|done|by rewrite Hkey, Hbk].
           rewrite (IH _ _ _ _ _ _ pattern k Hrec Hk).
           apply route_handlers_same_children; [congruence|].
           destruct Hbh as [->| ->]; [by rewrite Hch|].
           by rewrite lookup_insert_ne, Hch.
        -- erewrite find_child_insert_other; [done|done|done|exact Hi|].
           by rewrite Hkey, Hbk.
      * erewrite find_child_insert_None; [done|done|exact Hi|].
        by rewrite Hkey, Hbk.
Qed.

End bindings.

(** ** Routes of literal segments *)

Section literal_routes.
Context {H Regexp : Type} `{!RegexpEngine Regexp} `{!UnicodeTables} `{MapRange} `{DefaultHandlers H}.
Implicit Types (t node : routeTree H Regexp) (m : Mux H Regexp) (h : H).

Lemma route_node_literal path : ∀ t,
  Forall literal_segment path → route_node t path = node_at t path.
Proof.
  induction path as [|seg path IH]; intros t Hlit; [done|].
  apply Forall_cons in Hlit as [(_ & Hcolon & Hdots) Hlit]. simpl.
  apply String.eqb_neq in Hdots as ->.
  rewrite segment_key_literal by done. unfold literal_child. simpl.
  destruct (find_child _ _ _) as [[j c]|]; simpl; [by apply IH | done].
Qed.

(** The node that a path of non-empty literal segments leads to answers
    the path with its bindings, when no node above it takes the path as a
    wildcard. *)
Lemma literal_match path : ∀ t n params,
  tree_ok t → Forall (λ seg, seg ≠ EmptyString) path →
  node_at t path = Some n → handlers n ≠ ∅ →
  (∀ k n', (k < length path)%nat →
     node_at t (take k path) = Some n' → isWildcard n' = false) →
  findHandler path t params
  = Some (handlers n, params, makeAllowedMethodsMap (handlers n)).
Proof.
  induction path as [|seg path IH]; intros t n params Hok Hne Hat Hbound Habove.
  - simpl in Hat. injection Hat as ->. simpl.
    apply map_size_non_empty_iff in Hbound.
    by destruct (size (handlers n)).
  - apply Forall_cons in Hne as [Hseg Hne]. simpl in Hat.
    destruct (literal_child t seg) as [c|] eqn:Hc; simpl in Hat; [|done].
    pose proof Hc as [i Hfind]%literal_child_Some.
    assert (tree_ok c) as Hokc.
    { apply tree_ok_inv in Hok as [_ Hsub]. eapply Forall_forall; [exact Hsub|].
      apply find_child_Some in Hfind as (Hi & _). by eapply list_elem_of_lookup_2. }
    eapply findHandler_literal; [done| |done|exact Hfind|].
    + apply (Habove 0%nat t); [simpl; lia | done].
    + apply IH; try done.
      intros k n' Hk Hn'. apply (Habove (S k) n'); [simpl; lia|].
      simpl. by rewrite Hc.
Qed.

Lemma effective_methods_nonempty (methods : list string) :
  effective_methods methods ≠ [].
Proof.
  unfold effective_methods.
  destruct methods as [|x methods]; simpl; [done|].
  destruct (_ && _); [|done]. by destruct methods.
Qed.

Lemma Handle_effective m (pattern : string) h (methods : list string) :
  Handle m pattern h methods
  = addRoutes m (strings.Split (strings.Trim pattern "/") "/")
              (effective_methods methods) (wrap m h).
Proof. done. Qed.

Lemma addRoutes_bindings methods : ∀ m m' segments h K,
  segments ≠ [] →
  addRoutes m segments methods h = Some m' →
  route_handlers (root m') segments !! K =
    if decide (K ∈ strings.ToUpper <$> methods) then Some h
    else route_handlers (root m) segments !! K.
Proof.
  induction methods as [|x methods IH]; intros m m' segments h K Hne;
    cbn [addRoutes].
  - intros [= <-]. rewrite decide_False; [done|]. apply not_elem_of_nil.
  - unfold addRoute.
    destruct (addRoute_from _ _ _ _ _) as [[t1 cache1]|] eqn:Hadd; simpl; [|done].
    intros Hrest. rewrite (IH _ _ _ _ K Hne Hrest). simpl.
    apply addRoute_from_binds in Hadd; [|done]. rewrite Hadd.
    destruct (decide (K ∈ strings.ToUpper <$> methods)) as [Hin|Hout].
    + rewrite decide_True; [done|]. by right.
    + destruct (decide (strings.ToUpper x = K)) as [<-|HxK].
      * rewrite lookup_insert_eq. rewrite decide_True; [done|]. by left.
      * rewrite lookup_insert_ne by done. rewrite decide_False; [done|].
        intros [?|?]%elem_of_cons; [congruence|done].
Qed.

Lemma addRoutes_other_methods methods : ∀ m m' segments h pattern K,
  addRoutes m segments methods h = Some m' →
  K ∉ strings.ToUpper <$> methods →
  route_handlers (root m') pattern !! K = route_handlers (root m) pattern !! K.
Proof.
  induction methods as [|x methods IH]; intros m m' segments h pattern K; simpl.
  - by intros [= <-].
  - unfold addRoute.
    destruct (addRoute_from _ _ _ _ _) as [[t1 cache1]|] eqn:Hadd; simpl; [|done].
    intros Hrest Hout. apply not_elem_of_cons in Hout as [HxK Hout].
    rewrite (IH _ _ _ _ pattern K Hrest Hout). simpl.
    by eapply addRoute_from_other_methods.
Qed.

End literal_routes.

Section literal_dispatch.
Context {H Regexp : Type} `{!RegexpEngine Regexp} `{!UnicodeTables} `{MapRange} `{DefaultHandlers H}.
Implicit Types (t node : routeTree H Regexp) (m : Mux H Regexp) (h : H).



Lemma effective_methods_given (methods : list string) (method : string) :
  method ∈ methods → method ∈ effective_methods methods.
Proof.
  intros Hin. unfold effective_methods.
  assert ((if (length methods =? 0)%nat then AllMethods else methods) = methods)
    as -> by (destruct methods; [by apply elem_of_nil in Hin|done]).
  destruct (_ && _); [|done]. apply elem_of_app. by left.
Qed.


(** Right after [Handle] registered a pattern of non-empty literal
    segments, a request for those segments with one of the registered
    methods is dispatched to the handler the call wrapped. *)
Lemma Handle_literal_dispatch m0 m (pattern : string) h (methods : list string)
    (M path : string) :
  mux_ok m0 →
  Handle m0 pattern h methods = Some m →
  M ∈ strings.ToUpper <$> effective_methods methods →
  Forall literal_segment (strings.Split (strings.Trim pattern "/") "/") →
  (∀ k n', (k < length (strings.Split (strings.Trim pattern "/") "/"))%nat →
     node_at (root m) (take k (strings.Split (strings.Trim pattern "/") "/")) = Some n' →
     isWildcard n' = false) →
  strings.Split (strings.Trim path "/") "/"
    = strings.Split (strings.Trim pattern "/") "/" →
  ServeHTTP m M path = Dispatch (wrap m0 h) ∅.
Proof.
  intros Hok0 Hhandle HM Hlit Habove Hpath.
  pose proof Hhandle as [[Htree _] _]%Handle_ok; [|done].
  rewrite Handle_effective in Hhandle.
  eapply (addRoutes_bindings _ _ _ _ _ M) in Hhandle; [|apply Split_nonempty].
  rewrite decide_True in Hhandle by done.
  unfold route_handlers in Hhandle. rewrite route_node_literal in Hhandle by done.
  destruct (node_at (root m) _) as [n|] eqn:Hn; [|by rewrite lookup_empty in Hhandle].
  rewrite ServeHTTP_cases, Hpath.
  erewrite literal_match; [by rewrite Hhandle|done| |exact Hn| |done].
  - eapply Forall_impl; [exact Hlit|]. by intros seg (? & _).
  - intros Hempty. by rewrite Hempty, lookup_empty in Hhandle.
Qed.

(** X5.  A route of non-empty literal segments answers its own path: right
    after [Handle], a request for the pattern's segments with a registered
    method (in upper case) is dispatched to the handler inside the chain of
    the moment of registration, with no parameters -- whatever was bound to
    the pattern before, and unless a node above is a wildcard terminal. *)
Theorem literal_route_round_trip (setup : list (Setup H)) m0 m (pattern : string) h
    (methods : list string) (method path : string) :
  run setup New = Some m0 →
  Handle m0 pattern h methods = Some m →
  method ∈ methods →
  Forall literal_segment (strings.Split (strings.Trim pattern "/") "/") →
  (∀ k n', (k < length (strings.Split (strings.Trim pattern "/") "/"))%nat →
     node_at (root m) (take k (strings.Split (strings.Trim pattern "/") "/")) = Some n' →
     isWildcard n' = false) →
  strings.Split (strings.Trim path "/") "/"
    = strings.Split (strings.Trim pattern "/") "/" →
  ServeHTTP m (strings.ToUpper method) path = Dispatch (wrap m0 h) ∅.
Proof.
  intros [Hok0 _]%setup_ok Hhandle Hmethod Hlit Habove Hpath.
  eapply Handle_literal_dispatch; try done.
  apply list_elem_of_fmap_2. by apply effective_methods_given.
Qed.



(** X8.  [Handle] binds the upper-cased methods to the wrapped handler at
    the node of its pattern, replacing what those methods were bound to,
    and changes no binding of any other method at any node of the tree. *)
Theorem Handle_binds_its_methods_only m m' (pattern : string) h
    (methods : list string) (K : string) :
  Handle m pattern h methods = Some m' →
  (K ∈ strings.ToUpper <$> effective_methods methods →
   route_handlers (root m') (strings.Split (strings.Trim pattern "/") "/") !! K
   = Some (wrap m h)) ∧
  (K ∉ strings.ToUpper <$> effective_methods methods →
   ∀ other, route_handlers (root m') other !! K = route_handlers (root m) other !! K).
Proof.
  rewrite Handle_effective. intros Hhandle. split.
  - intros HK.
    eapply (addRoutes_bindings _ _ _ _ _ K) in Hhandle; [|apply Split_nonempty].
    by rewrite decide_True in Hhandle.
  - intros HK other. by eapply addRoutes_other_methods.
Qed.

End literal_dispatch.

(** ** Groups and their decorators *)

Section more_serving.
Context {H Regexp : Type} `{!RegexpEngine Regexp} `{!UnicodeTables} `{MapRange} `{DefaultHandlers H}.
Implicit Types (t node : routeTree H Regexp) (m : Mux H Regexp) (h : H).

Lemma addRoutes_fields methods : ∀ m m' segments h,
  addRoutes m segments methods h = Some m' →
  middlewares m' = middlewares m ∧ NotFound m' = NotFound m ∧
  MethodNotAllowed m' = MethodNotAllowed m ∧ Options m' = Options m.
Proof.
  induction methods as [|x methods IH]; intros m m' segments h; simpl.
  - by intros [= <-].
  - unfold addRoute.
    destruct (addRoute_from _ _ _ _ _) as [[t1 cache1]|]; simpl; [|done].
    by intros (-> & -> & -> & ->)%IH.
Qed.

Lemma run_call_middlewares (call : Setup H) m m' :
  run_call call m = Some m' →
  middlewares m' = (middlewares m ++ top_level_uses [call])%list.
Proof.
  destruct call as [fb|fb|fb|mw|pattern h methods|body]; simpl.
  - intros [= <-]. simpl. by rewrite app_nil_r.
  - intros [= <-]. simpl. by rewrite app_nil_r.
  - intros [= <-]. simpl. by rewrite app_nil_r.
  - intros [= <-]. simpl. by rewrite app_nil_r.
  - unfold Handle. intros (-> & _)%addRoutes_fields. by rewrite app_nil_r.
  - unfold Group. destruct (run_with _ _ _) as [sub|]; simpl; [|done].
    intros [= <-]. simpl. by rewrite app_nil_r.
Qed.

(** X9.  Decorators do not leak out of a group: after any setup the
    router's chain is the chain it had followed by the decorators of the
    setup's own [Use] calls, in order; the [Use] calls inside its groups
    add nothing to it. *)
Theorem groups_keep_their_decorators (setup : list (Setup H)) : ∀ m m',
  run setup m = Some m' →
  middlewares m' = (middlewares m ++ top_level_uses setup)%list.
Proof.
  induction setup as [|call setup IH]; intros m m'.
  - intros [= <-]. simpl. by rewrite app_nil_r.
  - rewrite run_cons.
    destruct (run_call call m) as [m1|] eqn:Hcall; simpl; [|done].
    intros Hrest. rewrite (IH _ _ Hrest).
    rewrite (run_call_middlewares _ _ _ Hcall), <- app_assoc. f_equal.
    destruct call; simpl; by rewrite ?app_nil_r.
Qed.


End more_serving.

(** ** Invariants of the tree and of the bindings *)

Section invariants.
Context {H Regexp : Type} `{!RegexpEngine Regexp} `{!UnicodeTables} `{MapRange} `{DefaultHandlers H}.
Implicit Types (t node current child : routeTree H Regexp) (m : Mux H Regexp) (h : H).
Implicit Types (cache : gmap string Regexp) (Q : gmap string H → Prop).

(** X11.  After any setup, at every node of the tree: the node is not both
    a literal node and a parameter node; no two of its children have the
    same segment text and parameter name; and if it is a wildcard terminal
    it has at least one binding. *)
Theorem tree_invariants (setup : list (Setup H)) m n :
  run setup New = Some m → node_of (root m) n →
  (segment n = EmptyString ∨ paramName n = EmptyString) ∧
  NoDup (key <$> children n) ∧
  (isWildcard n = true → handlers n ≠ ∅).
Proof.
  intros [[Htree _] _]%setup_ok Hn.
  by destruct (tree_ok_node_of _ _ Htree Hn).
Qed.

Lemma every_binding_inv Q t :
  every_binding Q t → Q (handlers t) ∧ Forall (every_binding Q) (children t).
Proof. by inversion 1. Qed.

Lemma addRoute_from_every_binding Q segments : ∀ method h t cache t' cache',
  Q ∅ → (∀ hs, Q hs → Q (<[method := h]> hs)) →
  every_binding Q t →
  addRoute_from segments method h t cache = Some (t', cache') →
  every_binding Q t'.
Proof.
  induction segments as [|seg rest IH];
    intros method h t cache t' cache' Hempty Hinsert Hall Hadd.
  - simpl in Hadd. by simplify_eq.
  - apply every_binding_inv in Hall as [Hq Hsub].
    apply addRoute_from_cons in Hadd
      as [(-> & -> & ->)|(Hne & current1 & i & child & cache1 & child2 & Hsel & Hrec & ->)].
    + constructor; simpl; auto.
    + apply select_child_spec in Hsel as (child0 & Hfind & Hcur & Hcs & Hchild).
      pose proof Hfind as (Hi & _)%find_child_Some.
      assert (Forall (every_binding Q) (children current1)) as Hsub1.
      { destruct Hcs as [->|(_ & -> & ->)]; [done|].
        apply Forall_app. split; [done|]. constructor; [|done].
        constructor; [done|by constructor]. }
      assert (every_binding Q child0) as [Hq0 Hsub0]%every_binding_inv.
      { eapply Forall_forall; [exact Hsub1|]. by eapply list_elem_of_lookup_2. }
      destruct (bind_if_last_fields rest method h child) as (_ & Hbc & _ & _ & Hbh).
      assert (children child = children child0 ∧ handlers child = handlers child0)
        as (Hcc & Hch) by (by rewrite Hchild).
      assert (every_binding Q (bind_if_last rest method h child)) as Hall1.
      { constructor; [|by rewrite Hbc, Hcc].
        destruct Hbh as [->| ->]; rewrite Hch; auto. }
      rewrite Hcur. constructor; simpl; [done|].
      apply Forall_insert; [done|]. by eapply IH.
Qed.

Lemma findHandler_every_binding Q segments : ∀ node params hs ps al,
  every_binding Q node →
  findHandler segments node params = Some (hs, ps, al) → Q hs.
Proof.
  induction segments as [|seg rest IH]; intros node params hs ps al Hall; simpl.
  - apply every_binding_inv in Hall as [Hq _].
    case_match; [|done]. by intros [= <- <- <-].
  - apply every_binding_inv in Hall as [Hq Hsub].
    destruct (isWildcard node); [by intros [= <- <- <-]|].
    assert (∀ c, c ∈ children node → every_binding Q c) as Hc
      by (by apply Forall_forall).
    destruct (first_hit _ (children node)) as [r|] eqn:Hlit.
    + intros [= ->]. apply first_hit_Some in Hlit as (c & Hin & Hr).
      destruct (String.eqb (segment c) seg); [eauto | done].
    + intros (c & Hin & Hr)%first_hit_Some.
      destruct (negb (String.eqb (paramName c) EmptyString)); [|done].
      destruct (rxPattern c) as [rx|]; [|eauto].
      destruct (negb (MatchString rx seg)); [done | eauto].
Qed.

Lemma addRoutes_every_binding Q methods : ∀ m m' segments h,
  Q ∅ → (∀ method hs, Q hs → Q (<[strings.ToUpper method := h]> hs)) →
  every_binding Q (root m) →
  addRoutes m segments methods h = Some m' → every_binding Q (root m').
Proof.
  induction methods as [|method methods IH]; intros m m' segments h Hempty Hins Hall;
    cbn [addRoutes].
  - by intros [= <-].
  - unfold addRoute at 1.
    destruct (addRoute_from _ _ _ _ _) as [[t' cache']|] eqn:Hadd; simpl; [|done].
    apply IH; [done|done|]. simpl.
    eapply addRoute_from_every_binding; [done| |done|exact Hadd]. apply Hins.
Qed.

Lemma upper_case_insert (method : string) h (hs : gmap string H) :
  (∀ k, is_Some (hs !! k) → ∃ given, k = strings.ToUpper given) →
  ∀ k, is_Some (<[strings.ToUpper method := h]> hs !! k) →
       ∃ given, k = strings.ToUpper given.
Proof.
  intros Hhs k. destruct (decide (strings.ToUpper method = k)) as [<-|Hne].
  - intros _. by exists method.
  - rewrite lookup_insert_ne by done. apply Hhs.
Qed.

Lemma run_call_upper_case (call : Setup H) : ∀ m m',
  every_binding (λ hs, ∀ k, is_Some (hs !! k) → ∃ given, k = strings.ToUpper given) (root m) →
  run_call call m = Some m' →
  every_binding (λ hs, ∀ k, is_Some (hs !! k) → ∃ given, k = strings.ToUpper given) (root m').
Proof.
  induction call as [h|h|h|mw|pattern h methods|body IH] using Setup_nested_ind;
    intros m m' Hall; try (by intros [= <-]).
  - simpl. unfold Handle. apply addRoutes_every_binding; [| |done].
    + intros k. rewrite lookup_empty. by intros [? ?].
    + intros method hs. apply upper_case_insert.
  - rewrite run_call_group. unfold Group.
    destruct (run body _) as [sub|] eqn:Hrun; simpl; [|done].
    intros [= <-]. simpl.
    assert (∀ (calls : list (Setup H)) (m1 m2 : Mux H Regexp),
      Forall (λ c, ∀ m m' : Mux H Regexp,
        every_binding (λ hs, ∀ k, is_Some (hs !! k) → ∃ given, k = strings.ToUpper given) (root m) →
        run_call c m = Some m' →
        every_binding (λ hs, ∀ k, is_Some (hs !! k) → ∃ given, k = strings.ToUpper given) (root m'))
        calls →
      every_binding (λ hs, ∀ k, is_Some (hs !! k) → ∃ given, k = strings.ToUpper given) (root m1) →
      run calls m1 = Some m2 →
      every_binding (λ hs, ∀ k, is_Some (hs !! k) → ∃ given, k = strings.ToUpper given) (root m2))
      as Hbody.
    { clear. induction calls as [|c cs IHcs]; intros m1 m2 Hcalls Hall1.
      - by intros [= <-].
      - apply Forall_cons in Hcalls as [Hc Hcalls]. rewrite run_cons.
        destruct (run_call c m1) as [m1'|] eqn:H1; simpl; [|done].
        apply Hc in H1; [|done]. by apply IHcs. }
    eapply Hbody; [exact IH| |exact Hrun]. done.
Qed.

Lemma run_upper_case (calls : list (Setup H)) : ∀ m m',
  every_binding (λ hs, ∀ k, is_Some (hs !! k) → ∃ given, k = strings.ToUpper given) (root m) →
  run calls m = Some m' →
  every_binding (λ hs, ∀ k, is_Some (hs !! k) → ∃ given, k = strings.ToUpper given) (root m').
Proof.
  induction calls as [|c cs IH]; intros m m' Hall.
  - by intros [= <-].
  - rewrite run_cons. destruct (run_call c m) as [m1|] eqn:Hcall; simpl; [|done].
    apply run_call_upper_case in Hcall; [|done]. by apply IH.
Qed.

(** X12.  Methods are matched as written in the request, and [Handle]
    binds the upper-case form of each method it is given: after any setup
    a request is dispatched to a handler only when its method is the
    [strings.ToUpper] of some text. *)
Theorem dispatch_needs_upper_case_method (setup : list (Setup H)) m
    (method path : string) h ctx :
  run setup New = Some m →
  ServeHTTP m method path = Dispatch h ctx →
  ∃ given, method = strings.ToUpper given.
Proof.
  intros Hrun.
  assert (every_binding (λ hs, ∀ k, is_Some (hs !! k) → ∃ given, k = strings.ToUpper given) (root m))
    as Hall.
  { eapply run_upper_case; [|exact Hrun]. simpl.
    constructor; simpl; [|done]. intros k. rewrite lookup_empty. by intros [? ?]. }
  rewrite ServeHTTP_cases.
  destruct (findHandler _ _ _) as [[[hs ps] al]|] eqn:Hfind;
    [|by destruct (NotFound m)].
  destruct (hs !! method) as [h'|] eqn:Hm.
  - intros _. eapply findHandler_every_binding in Hfind; [|exact Hall].
    apply Hfind. by exists h'.
  - unfold serve_fallback. by repeat case_match.
Qed.

End invariants.

(** ** Panics, and the case of the methods *)

Section registration_edges.
Context {H Regexp : Type} `{!RegexpEngine Regexp} `{!UnicodeTables} `{MapRange} `{DefaultHandlers H}.
Implicit Types (t node : routeTree H Regexp) (m : Mux H Regexp) (h : H).

Lemma addRoutes_None methods : ∀ m segments h,
  addRoutes m segments methods h = None
  ↔ methods ≠ [] ∧ constraints_compile (Regexp := Regexp) segments = false.
Proof.
  induction methods as [|x methods IH]; intros m segments h; cbn [addRoutes].
  - split; [done|]. by intros [? _].
  - unfold addRoute.
    destruct (addRoute_from _ _ _ _ _) as [[t1 cache1]|] eqn:Hadd; simpl.
    + rewrite IH. split; [by intros [_ ?]|]. intros [_ Hbad].
      apply (addRoute_from_None segments (strings.ToUpper x) h (root m) (rxCache m)) in Hbad.
      congruence.
    + split; [|done]. intros _. split; [done|].
      by eapply addRoute_from_None.
Qed.

(** X13.  [Handle] panics exactly when one of the constraints of its
    pattern, up to the wildcard marker, does not compile; the routes
    already there, the methods and the handler play no part. *)
Theorem Handle_panics_on_bad_constraint m (pattern : string) h (methods : list string) :
  Handle m pattern h methods = None
  ↔ constraints_compile (Regexp := Regexp)
      (strings.Split (strings.Trim pattern "/") "/") = false.
Proof.
  rewrite Handle_effective, addRoutes_None.
  split; [by intros [_ ?]|]. intros Hbad. split; [|done].
  apply effective_methods_nonempty.
Qed.

(** X14.  The rule that GET brings HEAD reads the methods as they are
    given, before they are put in upper case: when GET is given in another
    case only, GET is bound and no HEAD binding is made anywhere. *)
Theorem other_case_GET_brings_no_HEAD m m' (pattern : string) h
    (methods : list string) :
  Handle m pattern h methods = Some m' →
  contains methods MethodGet = false →
  MethodGet ∈ strings.ToUpper <$> methods →
  MethodHead ∉ strings.ToUpper <$> methods →
  route_handlers (root m') (strings.Split (strings.Trim pattern "/") "/") !! MethodGet
    = Some (wrap m h) ∧
  ∀ other, route_handlers (root m') other !! MethodHead
           = route_handlers (root m) other !! MethodHead.
Proof.
  rewrite Handle_effective. intros Hhandle Hget Hin Hout.
  assert (effective_methods methods = methods) as Heff.
  { unfold effective_methods.
    assert ((if (length methods =? 0)%nat then AllMethods else methods) = methods)
      as -> by (destruct methods; [by apply elem_of_nil in Hin|done]).
    by rewrite Hget. }
  rewrite Heff in Hhandle. split.
  - eapply (addRoutes_bindings _ _ _ _ _ MethodGet) in Hhandle; [|apply Split_nonempty].
    by rewrite decide_True in Hhandle.
  - intros other. by eapply addRoutes_other_methods.
Qed.

End registration_edges.

(** ** A router with one route *)

Section one_route.
Context {H Regexp : Type} `{!RegexpEngine Regexp} `{!UnicodeTables} `{MapRange} `{DefaultHandlers H}.
Implicit Types (t node current child : routeTree H Regexp) (m : Mux H Regexp) (h : H).
Implicit Types (cache : gmap string Regexp).

Lemma only_route_same pattern (a b : routeTree H Regexp) :
  children a = children b → isWildcard a = isWildcard b →
  only_route pattern a → only_route pattern b.
Proof.
  intros Hc Hw. destruct pattern as [|seg rest]; simpl.
  - by rewrite Hc, Hw.
  - destruct (String.eqb seg "..."); by rewrite Hc, Hw.
Qed.

Lemma select_child_constraint current seg cache current1 i child cache1 child0 :
  cache_ok cache →
  select_child current seg cache = Some (current1, i, child, cache1) →
  find_child (children current1) (segment_key seg).1 (segment_key seg).2
    = Some (i, child0) →
  rxPattern child =
    match segment_constraint seg with
    | Some rxSource => MustCompile rxSource
    | None => rxPattern child0
    end.
Proof.
  unfold select_child, segment_key, segment_constraint. intros Hok.
  destruct (strings.HasPrefix seg ":").
  - destruct (strings.Cut _ _) as [[pn src] hasRx]; simpl.
    destruct (findOrCreateChild current EmptyString pn) as [[cur j] c0] eqn:Hfoc.
    apply findOrCreateChild_spec in Hfoc as (Hfind & _).
    destruct hasRx.
    + destruct (MustCompile src) as [compiled|] eqn:Hc; simpl; [|done].
      destruct (LoadOrStore cache src compiled) as [rx cache2] eqn:Hls.
      intros [= <- <- <- <-] _. simpl.
      eapply LoadOrStore_spec in Hls as [-> _]; done.
    + intros [= <- <- <- <-]. rewrite Hfind. by intros [= <-].
  - destruct (findOrCreateChild current seg EmptyString) as [[cur j] c0] eqn:Hfoc.
    apply findOrCreateChild_spec in Hfoc as (Hfind & _).
    intros [= <- <- <- <-]. simpl. rewrite Hfind. by intros [= <-].
Qed.

Lemma addRoute_from_only_route pattern : ∀ method h t cache t' cache',
  cache_ok cache →
  (children t = [] ∧ isWildcard t = false) ∨ only_route pattern t →
  addRoute_from pattern method h t cache = Some (t', cache') →
  only_route pattern t'.
Proof.
  induction pattern as [|seg rest IH]; intros method h t cache t' cache' Hok Hshape Hadd.
  - simpl in Hadd. simplify_eq. by destruct Hshape.
  - apply addRoute_from_cons in Hadd
      as [(-> & -> & ->)|(Hne & current1 & i & child & cache1 & child2 & Hsel & Hrec & ->)].
    + simpl. split; [|done]. destruct Hshape as [[? _]|Hshape]; [done|].
      simpl in Hshape. by destruct Hshape.
    + cbn [only_route] in *. rewrite (proj2 (String.eqb_neq _ _) Hne) in *.
      pose proof (select_child_cache _ _ _ _ _ _ _ Hok Hsel) as Hok1.
      pose proof (λ child0, select_child_constraint _ _ _ _ _ _ _ child0 Hok Hsel) as Hrx.
      apply select_child_spec in Hsel as (child0 & Hfind & Hcur & Hcs & Hchild).
      specialize (Hrx _ Hfind).
      pose proof Hfind as (Hi & Hkey0 & _)%find_child_Some.
      assert (isWildcard t = false) as Hw by (by destruct Hshape as [[_ ?]|[? _]]).
      assert (children current1 = [child0] ∧ i = 0%nat ∧
              ((children child0 = [] ∧ isWildcard child0 = false) ∨ only_route rest child0) ∧
              (segment_constraint seg = None → rxPattern child0 = None))
        as (Hcs1 & -> & Hshape0 & Hrx0).
      { destruct Hshape as [[Hempty _]|(_ & c & Hc & Hkc & Hrc & Hoc)].
        - destruct Hcs as [Hsame|(_ & Happ & Hfresh)].
          + rewrite Hsame, Hempty in Hi. done.
          + rewrite Hempty in Happ. simpl in Happ. rewrite Happ in Hi.
            apply list_lookup_singleton_Some in Hi as [-> _].
            split_and!; [done|done| |by rewrite Hfresh].
            left. by rewrite Hfresh.
        - destruct Hcs as [Hsame|(Hnone & _)].
          + rewrite Hsame, Hc in Hi.
            apply list_lookup_singleton_Some in Hi as [-> <-].
            split_and!; [by rewrite Hsame|done|by right|].
            intros Hno. by rewrite Hrc, Hno.
          + apply find_child_None in Hnone. exfalso. apply Hnone.
            rewrite Hc. simpl. rewrite Hkc. destruct (segment_key seg). by left. }
      destruct (bind_if_last_fields rest method h child) as (Hbk & Hbc & Hbw & Hbr & _).
      assert (children child = children child0 ∧ isWildcard child = isWildcard child0 ∧
              key child = key child0) as (Hcc & Hcw & Hck) by (by rewrite Hchild).
      pose proof (addRoute_from_key _ _ _ _ _ _ _ Hrec) as [Hk2 Hr2].
      eapply IH in Hrec; [|done|].
      * rewrite Hcur, Hcs1. simpl. split; [done|].
        exists child2. split_and!; [done| | |done].
        -- rewrite Hk2, Hbk, Hck, Hkey0. by destruct (segment_key seg).
        -- rewrite Hr2, Hbr, Hrx. destruct (segment_constraint seg); [done|]. by apply Hrx0.
      * destruct Hshape0 as [[Hc0 Hw0]|Hshape0].
        -- left. by rewrite Hbc, Hbw, Hcc, Hcw.
        -- right. eapply only_route_same; [| |exact Hshape0].
           ++ by rewrite Hbc, Hcc.
           ++ by rewrite Hbw, Hcw.
Qed.

Lemma only_route_match pattern : ∀ t request params ps,
  only_route pattern t → route_handlers t pattern ≠ ∅ →
  captures (Regexp := Regexp) pattern request params = Some ps →
  findHandler request t params
  = Some (route_handlers t pattern, ps, makeAllowedMethodsMap (route_handlers t pattern)).
Proof.
  induction pattern as [|seg rest IH]; intros t request params ps Hshape Hbound.
  - rewrite route_handlers_nil in *. destruct request; [|done]. intros [= <-]. simpl.
    apply map_size_non_empty_iff in Hbound.
    by destruct (size (handlers t)).
  - cbn [captures only_route] in *.
    destruct (String.eqb_spec seg "...") as [->|Hne].
    + rewrite route_handlers_marker in *. destruct Hshape as [_ Hw].
      destruct request as [|text request']; intros [= <-]; simpl.
      * apply map_size_non_empty_iff in Hbound. by destruct (size (handlers t)).
      * by rewrite Hw.
    + destruct Hshape as (Hw & c & Hcs & Hkey & Hrx & Hrest).
      assert (route_handlers t (seg :: rest) = route_handlers c rest) as Hrh.
      { rewrite route_handlers_cons by done.
        assert (find_child (children t) (segment_key seg).1 (segment_key seg).2
                = Some (0%nat, c)) as ->; [|done].
        apply find_child_Some. rewrite Hcs. split_and!; [done| |intros; lia].
        rewrite Hkey. by destruct (segment_key seg). }
      rewrite Hrh in *.
      destruct request as [|text request']; [done|].
      unfold key in Hkey. unfold segment_key in *.
      destruct (strings.HasPrefix seg ":") eqn:Hprefix.
      * cbn [snd] in *. injection Hkey as Hseg Hname.
        destruct (String.eqb_spec text EmptyString) as [|Htext]; [done|].
        destruct (String.eqb_spec ((strings.Cut (strings.TrimPrefix seg ":") "|").1.1)
                                  EmptyString) as [|Hnamed]; [done|].
        cbn [orb]. intros Hcap.
        cbn [findHandler]. rewrite Hw, Hcs. cbn [first_hit].
        rewrite Hseg.
        assert (String.eqb EmptyString text = false) as ->
          by (apply String.eqb_neq; congruence).
        rewrite Hname.
        assert (String.eqb ((strings.Cut (strings.TrimPrefix seg ":") "|").1.1)
                           EmptyString = false) as ->
          by (by apply String.eqb_neq).
        cbn [negb]. rewrite Hrx. unfold copyParams.
        destruct (segment_constraint seg) as [src|]; simpl.
        -- destruct (MustCompile src) as [rx|]; [|done].
           destruct (MatchString rx text); [|done]. simpl.
           by rewrite (IH _ _ _ _ Hrest Hbound Hcap).
        -- by rewrite (IH _ _ _ _ Hrest Hbound Hcap).
      * injection Hkey as Hseg Hname.
        destruct (String.eqb_spec seg text) as [<-|]; [|done]. intros Hcap.
        cbn [findHandler]. rewrite Hw, Hcs. cbn [first_hit].
        rewrite Hseg, String.eqb_refl.
        by rewrite (IH _ _ _ _ Hrest Hbound Hcap).
Qed.

Lemma addRoutes_only_route methods : ∀ m m' segments h,
  cache_ok (rxCache m) →
  (children (root m) = [] ∧ isWildcard (root m) = false) ∨ only_route segments (root m) →
  methods ≠ [] →
  addRoutes m segments methods h = Some m' →
  only_route segments (root m').
Proof.
  induction methods as [|x methods IH]; intros m m' segments h Hok Hshape Hne; [done|].
  cbn [addRoutes]. unfold addRoute.
  destruct (addRoute_from _ _ _ _ _) as [[t1 cache1]|] eqn:Hadd; simpl; [|done].
  pose proof (addRoute_from_cache _ _ _ _ _ _ _ Hok Hadd) as Hok1.
  apply addRoute_from_only_route in Hadd; [|done..].
  destruct methods as [|y methods].
  - by intros [= <-].
  - apply IH; [done|by right|done].
Qed.

(** X15.  The first route of a router answers the requests its pattern
    describes: when the segments of the request match the segments of the
    pattern one by one (see [captures]), the request is dispatched to the
    handler, inside the chain of the moment of registration, with the
    captured parameters. *)
Theorem first_route_answers_its_pattern (setup : list (Setup H)) m0 m
    (pattern : string) h (methods : list string) (method path : string) ps :
  run setup New = Some m0 →
  children (root m0) = [] → isWildcard (root m0) = false →
  Handle m0 pattern h methods = Some m →
  method ∈ methods →
  captures (Regexp := Regexp) (strings.Split (strings.Trim pattern "/") "/")
           (strings.Split (strings.Trim path "/") "/") ∅ = Some ps →
  ServeHTTP m (strings.ToUpper method) path = Dispatch (wrap m0 h) ps.
Proof.
  intros [[_ Hcache] _]%setup_ok Hcs Hw Hhandle Hmethod Hcap.
  rewrite Handle_effective in Hhandle.
  pose proof Hhandle as Hshape.
  apply addRoutes_only_route in Hshape;
    [|done|by left|apply effective_methods_nonempty].
  eapply (addRoutes_bindings _ _ _ _ _ (strings.ToUpper method)) in Hhandle;
    [|apply Split_nonempty].
  rewrite decide_True in Hhandle
    by (by apply list_elem_of_fmap_2, effective_methods_given).
  rewrite ServeHTTP_cases.
  erewrite only_route_match; [by rewrite Hhandle|done| |done].
  intros Hempty. by rewrite Hempty, lookup_empty in Hhandle.
Qed.

End one_route.

(** ** Bindings are never removed *)

Section monotone.
Context {H Regexp : Type} `{!RegexpEngine Regexp} `{!UnicodeTables} `{MapRange} `{DefaultHandlers H}.
Implicit Types (t node current child : routeTree H Regexp) (m : Mux H Regexp) (h : H).
Implicit Types (cache : gmap string Regexp).

Lemma route_handlers_bound_same_children (a b : routeTree H Regexp) pattern k :
  children a = children b →
  (is_Some (handlers a !! k) → is_Some (handlers b !! k)) →
  is_Some (route_handlers a pattern !! k) → is_Some (route_handlers b pattern !! k).
Proof.
  intros Hc Hh. destruct pattern as [|s rest]; [done|].
  destruct (String.eqb_spec s "...") as [->|Hne]; [done|].
  by rewrite !route_handlers_cons, Hc.
Qed.

Lemma addRoute_from_keeps_bound segments : ∀ method h t cache t' cache' pattern k,
  addRoute_from segments method h t cache = Some (t', cache') →
  is_Some (route_handlers t pattern !! k) → is_Some (route_handlers t' pattern !! k).
Proof.
  induction segments as [|seg rest IH];
    intros method h t cache t' cache' pattern k Hadd.
  - simpl in Hadd. by simplify_eq.
  - apply addRoute_from_cons in Hadd
      as [(-> & -> & ->)|(Hseg & current1 & i & child & cache1 & child2 & Hsel & Hrec & ->)].
    + apply route_handlers_bound_same_children; simpl; [done|].
      apply is_Some_insert_keep.
    + rewrite <- (select_child_route_handlers _ _ _ _ _ _ _ pattern Hsel).
      apply select_child_spec in Hsel as (child0 & Hfind & Hcur & Hcs & Hchild).
      pose proof Hrec as [Hkey _]%addRoute_from_key.
      destruct (bind_if_last_fields rest method h child) as (Hbk & Hbc & _ & _ & Hbh).
      assert (key child = key child0 ∧ children child = children child0 ∧
              handlers child = handlers child0) as (Hck & Hcc & Hch)
        by (by rewrite Hchild).
      destruct pattern as [|s pattern]; [done|].
      destruct (String.eqb_spec s "...") as [->|Hs]; [done|].
      rewrite !route_handlers_cons by done. simpl.
      pose proof Hfind as (Hi & _)%find_child_Some.
      destruct (find_child (children current1) (segment_key s).1 (segment_key s).2)
        as [[j c]|] eqn:Hj.
      * destruct (decide (j = i)) as [->|Hji].
        -- assert (c = child0) as ->.
           { apply find_child_Some in Hj as (Hj & _). congruence. }
           erewrite find_child_insert_same; [|done|by rewrite Hkey, Hbk].
           intros Hbound. eapply IH; [exact Hrec|].
           revert Hbound. apply route_handlers_bound_same_children; [congruence|].
           destruct Hbh as [->| ->]; rewrite Hch; [done|].
           apply is_Some_insert_keep.
        -- erewrite find_child_insert_other; [done|done|done|exact Hi|].
           by rewrite Hkey, Hbk.
      * erewrite find_child_insert_None; [done|done|exact Hi|].
        by rewrite Hkey, Hbk.
Qed.

Lemma addRoutes_keeps_bound methods : ∀ m m' segments h pattern k,
  addRoutes m segments methods h = Some m' →
  is_Some (route_handlers (root m) pattern !! k) →
  is_Some (route_handlers (root m') pattern !! k).
Proof.
  induction methods as [|x methods IH]; intros m m' segments h pattern k; cbn [addRoutes].
  - by intros [= <-].
  - unfold addRoute.
    destruct (addRoute_from _ _ _ _ _) as [[t1 cache1]|] eqn:Hadd; simpl; [|done].
    intros Hrest Hbound. eapply IH; [exact Hrest|]. simpl.
    by eapply addRoute_from_keeps_bound.
Qed.

Lemma run_call_keeps_bound (call : Setup H) : ∀ m m' pattern k,
  run_call call m = Some m' →
  is_Some (route_handlers (root m) pattern !! k) →
  is_Some (route_handlers (root m') pattern !! k).
Proof.
  induction call as [h|h|h|mw|pat h methods|body IH] using Setup_nested_ind;
    intros m m' pattern k; try (by intros [= <-]).
  - simpl. unfold Handle. apply addRoutes_keeps_bound.
  - rewrite run_call_group. unfold Group.
    destruct (run body _) as [sub|] eqn:Hrun; simpl; [|done].
    intros [= <-]. simpl.
    assert (∀ (calls : list (Setup H)) (m1 m2 : Mux H Regexp),
      Forall (λ c, ∀ (m m' : Mux H Regexp) pattern k,
        run_call c m = Some m' →
        is_Some (route_handlers (root m) pattern !! k) →
        is_Some (route_handlers (root m') pattern !! k)) calls →
      run calls m1 = Some m2 →
      is_Some (route_handlers (root m1) pattern !! k) →
      is_Some (route_handlers (root m2) pattern !! k)) as Hbody.
    { clear. induction calls as [|c cs IHcs]; intros m1 m2 Hcalls.
      - by intros [= <-].
      - apply Forall_cons in Hcalls as [Hc Hcalls]. rewrite run_cons.
        destruct (run_call c m1) as [m1'|] eqn:Hcall; simpl; [|done].
        intros Hrest Hbound. eapply IHcs; [done|exact Hrest|]. by eapply Hc. }
    intros Hbound. by eapply (Hbody _ _ _ IH Hrun).
Qed.

(** X16.  No setup call removes a binding: a method that is bound at the
    node of a pattern is still bound there, perhaps to another handler,
    after any further calls of [Handle], [Use] and [Group] and any change
    of the fallback handlers. *)
Theorem bindings_are_never_removed (calls : list (Setup H)) : ∀ m m' pattern k,
  run calls m = Some m' →
  is_Some (route_handlers (root m) pattern !! k) →
  is_Some (route_handlers (root m') pattern !! k).
Proof.
  induction calls as [|c cs IH]; intros m m' pattern k.
  - by intros [= <-].
  - rewrite run_cons. destruct (run_call c m) as [m1|] eqn:Hcall; simpl; [|done].
    intros Hrest Hbound. eapply IH; [exact Hrest|]. by eapply run_call_keeps_bound.
Qed.

End monotone.

(** ** Wildcard patterns: where the flag is set, and which requests it takes *)

Section wildcard_positions.
Context {H Regexp : Type} `{!RegexpEngine Regexp} `{!UnicodeTables} `{MapRange} `{DefaultHandlers H}.
Implicit Types (t node current child : routeTree H Regexp) (cs : list (routeTree H Regexp)).
Implicit Types (m : Mux H Regexp) (h : H) (cache : gmap string Regexp).
Implicit Types (k : string * string) (ks : list (string * string)).

(** *** The two loops of [findHandler] as one list of attempts *)

Lemma first_hit_app {A B} (f : A → option B) (l1 l2 : list A) :
  first_hit f (l1 ++ l2)
  = match first_hit f l1 with Some r => Some r | None => first_hit f l2 end.
Proof. induction l1 as [|a l1 IH]; simpl; [done|]. by destruct (f a). Qed.

Lemma first_hit_filter {A B} (P : A → bool) (g : A → option B) (l : list A) :
  first_hit (λ x, if P x then g x else None) l = first_hit g (List.filter P l).
Proof.
  induction l as [|a l IH]; simpl; [done|].
  destruct (P a); simpl; by rewrite IH.
Qed.

Lemma first_hit_fmap {A B C} (f : B → option C) (g : A → B) (l : list A) :
  first_hit f (g <$> l) = first_hit (λ x, f (g x)) l.
Proof.
  induction l as [|a l IH]; [done|].
  rewrite fmap_cons. cbn [first_hit]. by rewrite IH.
Qed.

Lemma first_hit_ext {A B} (f g : A → option B) (l : list A) :
  (∀ x, f x = g x) → first_hit f l = first_hit g l.
Proof. intros Hfg. induction l as [|a l IH]; simpl; [done|]. by rewrite Hfg, IH. Qed.

Lemma findHandler_attempts seg rest node params :
  isWildcard node = false →
  findHandler (seg :: rest) node params
  = first_hit (λ a, findHandler rest a.1 a.2) (attempts node seg params).
Proof.
  intros Hw. cbn [findHandler]. rewrite Hw. unfold attempts.
  rewrite first_hit_app, !first_hit_fmap, <- !first_hit_filter. cbn [fst snd].
  destruct (first_hit _ (children node)); [done|].
  apply first_hit_ext. intros child.
  destruct (String.eqb (paramName child) EmptyString); simpl; [done|].
  destruct (rxPattern child) as [rx|]; [|done]. by destruct (MatchString rx seg).
Qed.

Lemma attempts_children node seg params a :
  a ∈ attempts node seg params → a.1 ∈ children node.
Proof.
  unfold attempts.
  intros [Hin|Hin]%elem_of_app; apply list_elem_of_fmap in Hin as (c & -> & Hc); simpl;
    apply list_elem_of_In, filter_In in Hc as [Hc _]; by apply list_elem_of_In.
Qed.

(** *** Children and their keys *)

Lemma unique_key cs (c1 c2 : routeTree H Regexp) :
  NoDup (key <$> cs) → c1 ∈ cs → c2 ∈ cs → key c1 = key c2 → c1 = c2.
Proof.
  intros Hkeys [i Hi]%list_elem_of_lookup [j Hj]%list_elem_of_lookup Hk.
  assert (i = j) as ->; [|congruence].
  eapply NoDup_lookup; [exact Hkeys|..].
  - by rewrite list_lookup_fmap, Hi.
  - by rewrite list_lookup_fmap, Hj, Hk.
Qed.

Lemma find_child_unique cs (c : routeTree H Regexp) :
  NoDup (key <$> cs) → c ∈ cs →
  ∃ i, find_child cs (key c).1 (key c).2 = Some (i, c).
Proof.
  intros Hkeys Hc.
  destruct (find_child cs (key c).1 (key c).2) as [[j c']|] eqn:Hj.
  - exists j. pose proof Hj as (Hl & Hk & _)%find_child_Some.
    f_equal. f_equal. eapply unique_key; [done| |done|].
    + by eapply list_elem_of_lookup_2.
    + by rewrite Hk.
  - apply find_child_None in Hj. destruct Hj.
    replace ((key c).1, (key c).2) with (key c) by done.
    by apply list_elem_of_fmap_2.
Qed.

Lemma find_child_app_other cs seg pn (fresh : routeTree H Regexp) :
  key fresh ≠ (seg, pn) →
  find_child (cs ++ [fresh]) seg pn = find_child cs seg pn.
Proof.
  intros Hne. destruct (find_child cs seg pn) as [[j c]|] eqn:Hj.
  - unfold find_child in *. by erewrite list_find_app_l.
  - apply find_child_None. apply find_child_None in Hj.
    rewrite fmap_app. intros [?|Hin]%elem_of_app; [done|].
    apply list_elem_of_singleton in Hin. congruence.
Qed.

Lemma find_child_insert_key cs seg pn i (x y : routeTree H Regexp) :
  cs !! i = Some x → key y = key x → key x ≠ (seg, pn) →
  find_child (<[i := y]> cs) seg pn = find_child cs seg pn.
Proof.
  intros Hi Hy Hne. destruct (find_child cs seg pn) as [[j c]|] eqn:Hj.
  - eapply find_child_insert_other; [done| |done|done].
    intros ->. apply find_child_Some in Hj as (Hj & Hk & _). congruence.
  - by eapply find_child_insert_None.
Qed.

Lemma node_of_keys t n :
  tree_ok t → node_of t n → ∃ ks, node_by_keys t ks = Some n.
Proof.
  intros Hok Hn. induction Hn as [t|t c n Hc Hn IH].
  - by exists [].
  - apply tree_ok_inv in Hok as [[_ Hkeys _] Hsub].
    destruct IH as [ks Hks]; [by eapply Forall_forall|].
    destruct (find_child_unique _ _ Hkeys Hc) as [i Hi].
    exists (key c :: ks). cbn [node_by_keys]. by rewrite Hi.
Qed.

Lemma node_by_keys_node_of ks : ∀ t n, node_by_keys t ks = Some n → node_of t n.
Proof.
  induction ks as [|k ks IH]; intros t n; cbn [node_by_keys].
  - intros [= <-]. constructor.
  - destruct (find_child (children t) k.1 k.2) as [[i c]|] eqn:Hfind; simpl; [|done].
    intros Hn. apply find_child_Some in Hfind as (Hi & _).
    eapply node_below; [by eapply list_elem_of_lookup_2 | by apply IH].
Qed.

(** *** One step of [addRoute] *)

Lemma marker_keys_cons seg rest :
  seg ≠ "..." →
  marker_keys (seg :: rest) = (λ ks, segment_key seg :: ks) <$> marker_keys rest.
Proof. intros Hne. simpl. by apply String.eqb_neq in Hne as ->. Qed.

Lemma addRoute_from_step seg rest method h t cache t' cache' :
  seg ≠ "..." →
  addRoute_from (seg :: rest) method h t cache = Some (t', cache') →
  ∃ i child0 child1 child2 cache1,
    addRoute_from rest method h child1 cache1 = Some (child2, cache') ∧
    isWildcard t' = isWildcard t ∧ handlers t' = handlers t ∧
    find_child (children t') (segment_key seg).1 (segment_key seg).2 = Some (i, child2) ∧
    (∀ seg' pn', (seg', pn') ≠ segment_key seg →
       find_child (children t') seg' pn' = find_child (children t) seg' pn') ∧
    (find_child (children t) (segment_key seg).1 (segment_key seg).2 = Some (i, child0) ∨
     find_child (children t) (segment_key seg).1 (segment_key seg).2 = None ∧
     children child0 = [] ∧ isWildcard child0 = false ∧ handlers child0 = ∅) ∧
    children child1 = children child0 ∧ isWildcard child1 = isWildcard child0 ∧
    (handlers child1 = handlers child0 ∨
     handlers child1 = <[method := h]> (handlers child0)).
Proof.
  intros Hne Hadd.
  apply addRoute_from_cons in Hadd
    as [(-> & _)|(_ & current1 & i & child & cache1 & child2 & Hsel & Hrec & ->)];
    [done|].
  apply select_child_spec in Hsel as (child0 & Hfind & Hcur & Hcs & Hchild).
  pose proof Hrec as [Hkey _]%addRoute_from_key.
  destruct (bind_if_last_fields rest method h child) as (Hbk & Hbc & Hbw & _ & Hbh).
  assert (key child = key child0 ∧ children child = children child0 ∧
          isWildcard child = isWildcard child0 ∧ handlers child = handlers child0)
    as (Hck & Hcc & Hcw & Hch) by (by rewrite Hchild).
  pose proof Hfind as (Hi & Hk0 & _)%find_child_Some.
  assert (isWildcard current1 = isWildcard t ∧ handlers current1 = handlers t)
    as [Hw1 Hh1] by (by rewrite Hcur).
  exists i, child0, (bind_if_last rest method h child), child2, cache1.
  split_and!; simpl; try done.
  - apply (find_child_insert_same _ _ _ _ child0); [done|]. by rewrite Hkey, Hbk.
  - intros seg' pn' Hother.
    rewrite (find_child_insert_key _ _ _ _ child0);
      [|done|by rewrite Hkey, Hbk, Hck|].
    + destruct Hcs as [->|(_ & -> & Hfresh)]; [done|].
      apply find_child_app_other. rewrite Hfresh. simpl.
      intros Heq. apply Hother. rewrite <- Heq. by destruct (segment_key seg).
    + rewrite Hk0. intros Heq. apply Hother. rewrite <- Heq.
      by destruct (segment_key seg).
  - destruct Hcs as [Hsame|(Hnone & _ & Hfresh)].
    + left. by rewrite <- Hsame.
    + right. by rewrite Hfresh.
  - by rewrite Hbc.
  - by rewrite Hbw.
  - destruct Hbh as [->| ->]; rewrite Hch; auto.
Qed.

(** A registration of a pattern with the marker sets the flag at the
    position of the marker and binds the method there. *)
Lemma addRoute_from_marks segments : ∀ method h t cache t' cache' ks,
  marker_keys segments = Some ks →
  addRoute_from segments method h t cache = Some (t', cache') →
  ∃ n, node_by_keys t' ks = Some n ∧ isWildcard n = true ∧
       handlers n !! method = Some h.
Proof.
  induction segments as [|seg rest IH]; intros method h t cache t' cache' ks Hks Hadd;
    [done|].
  destruct (String.eqb_spec seg "...") as [->|Hne].
  - simpl in Hks, Hadd. simplify_eq. eexists. split; [done|]. simpl.
    split; [done|]. apply lookup_insert_eq.
  - rewrite marker_keys_cons in Hks by done.
    destruct (marker_keys rest) as [ks'|] eqn:Hrest; simpl in Hks; [|done].
    injection Hks as <-.
    apply addRoute_from_step in Hadd
      as (i & child0 & child1 & child2 & cache1 & Hrec & _ & _ & Hown & _); [|done].
    destruct (IH _ _ _ _ _ _ _ eq_refl Hrec) as (n & Hn & Hw & Hh).
    exists n. cbn [node_by_keys]. rewrite Hown. done.
Qed.

(** A registration keeps every node at its position, with its flag and
    its bindings. *)
Lemma addRoute_from_keeps_nodes segments : ∀ method h t cache t' cache' ks n,
  addRoute_from segments method h t cache = Some (t', cache') →
  node_by_keys t ks = Some n →
  ∃ n', node_by_keys t' ks = Some n' ∧
    (isWildcard n = true → isWildcard n' = true) ∧
    (∀ key, is_Some (handlers n !! key) → is_Some (handlers n' !! key)).
Proof.
  induction segments as [|seg rest IH]; intros method h t cache t' cache' ks n Hadd Hn.
  - simpl in Hadd. simplify_eq. by exists n.
  - destruct (String.eqb_spec seg "...") as [->|Hne].
    + simpl in Hadd. simplify_eq. destruct ks as [|k ks].
      * simpl in Hn. simplify_eq. eexists. split; [done|]. simpl.
        split; [done|]. intros key. apply is_Some_insert_keep.
      * by exists n.
    + apply addRoute_from_step in Hadd
        as (i & child0 & child1 & child2 & cache1 & Hrec & Hw' & Hh' & Hown & Hother
            & Hchild0 & Hcc & Hcw & Hch); [|done].
      destruct ks as [|k ks].
      * simpl in Hn. simplify_eq. exists t'. by rewrite Hw', Hh'.
      * cbn [node_by_keys] in *.
        destruct (decide (k = segment_key seg)) as [->|Hk].
        -- rewrite Hown. simpl.
           destruct Hchild0 as [Hold|(Hnone & _)]; [|by rewrite Hnone in Hn].
           rewrite Hold in Hn. simpl in Hn.
           assert (∃ n1, node_by_keys child1 ks = Some n1 ∧
                     (isWildcard n = true → isWildcard n1 = true) ∧
                     (∀ key, is_Some (handlers n !! key) → is_Some (handlers n1 !! key)))
             as (n1 & Hn1 & Hw1 & Hh1).
           { destruct ks as [|k' ks].
             - simpl in Hn. simplify_eq. exists child1. split_and!; [done|congruence|].
               intros key. destruct Hch as [->| ->]; [done|]. apply is_Some_insert_keep.
             - exists n. cbn [node_by_keys] in *. by rewrite Hcc. }
           destruct (IH _ _ _ _ _ _ _ _ Hrec Hn1) as (n' & Hn' & Hw2 & Hh2).
           exists n'. split_and!; auto.
        -- destruct k as [seg' pn']. rewrite Hother by done. by exists n.
Qed.

(** After a registration a flag is where it was, or at the marker of the
    registered pattern. *)
Lemma addRoute_from_flag_sound segments :
  ∀ method h t cache t' cache' (P : list (string * string) → Prop),
  (∀ ks n, node_by_keys t ks = Some n → isWildcard n = true → P ks) →
  addRoute_from segments method h t cache = Some (t', cache') →
  ∀ ks n, node_by_keys t' ks = Some n → isWildcard n = true →
    P ks ∨ marker_keys segments = Some ks.
Proof.
  induction segments as [|seg rest IH];
    intros method h t cache t' cache' P Hinv Hadd ks n Hn Hw.
  - simpl in Hadd. simplify_eq. left. eauto.
  - destruct (String.eqb_spec seg "...") as [->|Hne].
    + simpl in Hadd. simplify_eq. destruct ks as [|k ks].
      * by right.
      * left. by apply (Hinv _ n).
    + apply addRoute_from_step in Hadd
        as (i & child0 & child1 & child2 & cache1 & Hrec & Hw' & Hh' & Hown & Hother
            & Hchild0 & Hcc & Hcw & Hch); [|done].
      destruct ks as [|k ks].
      * left. simpl in Hn. simplify_eq. apply (Hinv [] t); [done|]. by rewrite <- Hw'.
      * cbn [node_by_keys] in Hn.
        destruct (decide (k = segment_key seg)) as [->|Hk].
        -- rewrite Hown in Hn. simpl in Hn.
           assert (∀ ks1 n1, node_by_keys child1 ks1 = Some n1 → isWildcard n1 = true →
                     P (segment_key seg :: ks1)) as Hinv1.
           { intros ks1 n1 Hn1 Hw1.
             destruct Hchild0 as [Hold|(Hnone & Hc0 & Hw0 & _)].
             - destruct ks1 as [|k1 ks1].
               + simpl in Hn1. simplify_eq. apply (Hinv _ child0).
                 * cbn [node_by_keys]. by rewrite Hold.
                 * by rewrite <- Hcw.
               + apply (Hinv _ n1); [|done]. cbn [node_by_keys] in *.
                 rewrite Hold. simpl. by rewrite <- Hcc.
             - destruct ks1 as [|k1 ks1].
               + simpl in Hn1. simplify_eq. congruence.
               + cbn [node_by_keys] in Hn1. by rewrite Hcc, Hc0 in Hn1. }
           destruct (IH _ _ _ _ _ _ (λ ks', P (segment_key seg :: ks'))
                        Hinv1 Hrec ks n Hn Hw) as [HP|Hm].
           ++ by left.
           ++ right. rewrite marker_keys_cons by done. by rewrite Hm.
        -- left. apply (Hinv _ n); [|done]. cbn [node_by_keys].
           destruct k as [seg' pn']. by rewrite <- Hother.
Qed.

End wildcard_positions.

(** ** Registered wildcard patterns in the tree a setup produces *)

Section wildcard_claims.
Context {H Regexp : Type} `{!RegexpEngine Regexp} `{!UnicodeTables} `{MapRange} `{DefaultHandlers H}.
Implicit Types (t node current child : routeTree H Regexp) (cs : list (routeTree H Regexp)).
Implicit Types (m : Mux H Regexp) (h : H) (cache : gmap string Regexp).
Implicit Types (k : string * string) (ks : list (string * string)).

Lemma addRoutes_keeps_wildcard methods : ∀ m m' segments h ks M,
  addRoutes m segments methods h = Some m' →
  wildcard_bound (root m) ks M → wildcard_bound (root m') ks M.
Proof.
  induction methods as [|x methods IH]; intros m m' segments h ks M; cbn [addRoutes].
  - by intros [= <-].
  - unfold addRoute.
    destruct (addRoute_from _ _ _ _ _) as [[t1 cache1]|] eqn:Hadd; simpl; [|done].
    intros Hrest (n & Hn & Hw & Hb). eapply IH; [exact Hrest|]. simpl.
    destruct (addRoute_from_keeps_nodes _ _ _ _ _ _ _ _ _ Hadd Hn) as (n' & Hn' & Hw' & Hb').
    exists n'. auto.
Qed.

Lemma addRoutes_marks methods : ∀ m m' segments h ks M,
  marker_keys segments = Some ks → M ∈ strings.ToUpper <$> methods →
  addRoutes m segments methods h = Some m' → wildcard_bound (root m') ks M.
Proof.
  induction methods as [|x methods IH]; intros m m' segments h ks M Hks HM;
    cbn [addRoutes].
  - by apply elem_of_nil in HM.
  - unfold addRoute.
    destruct (addRoute_from _ _ _ _ _) as [[t1 cache1]|] eqn:Hadd; simpl; [|done].
    intros Hrest. rewrite fmap_cons in HM. apply elem_of_cons in HM as [->|HM].
    + eapply addRoutes_keeps_wildcard; [exact Hrest|]. simpl.
      destruct (addRoute_from_marks _ _ _ _ _ _ _ _ Hks Hadd) as (n & Hn & Hw & Hh).
      exists n. rewrite Hh. eauto.
    + by eapply IH.
Qed.

Lemma run_call_keeps_wildcard (call : Setup H) : ∀ m m' ks M,
  run_call call m = Some m' →
  wildcard_bound (root m) ks M → wildcard_bound (root m') ks M.
Proof.
  induction call as [h|h|h|mw|pat h methods|body IH] using Setup_nested_ind;
    intros m m' ks M; try (by intros [= <-]).
  - simpl. unfold Handle. apply addRoutes_keeps_wildcard.
  - rewrite run_call_group. unfold Group.
    destruct (run body _) as [sub|] eqn:Hrun; simpl; [|done].
    intros [= <-]. simpl.
    assert (∀ (calls : list (Setup H)) (m1 m2 : Mux H Regexp),
      Forall (λ c, ∀ (m m' : Mux H Regexp) ks M,
        run_call c m = Some m' →
        wildcard_bound (root m) ks M → wildcard_bound (root m') ks M) calls →
      run calls m1 = Some m2 →
      wildcard_bound (root m1) ks M → wildcard_bound (root m2) ks M) as Hbody.
    { clear. induction calls as [|c cs IHcs]; intros m1 m2 Hcalls.
      - by intros [= <-].
      - apply Forall_cons in Hcalls as [Hc Hcalls]. rewrite run_cons.
        destruct (run_call c m1) as [m1'|] eqn:Hcall; simpl; [|done].
        intros Hrest Hbound. eapply IHcs; [done|exact Hrest|]. by eapply Hc. }
    intros Hbound. by eapply (Hbody _ _ _ IH Hrun).
Qed.

Lemma run_keeps_wildcard (calls : list (Setup H)) : ∀ m m' ks M,
  run calls m = Some m' →
  wildcard_bound (root m) ks M → wildcard_bound (root m') ks M.
Proof.
  induction calls as [|c cs IH]; intros m m' ks M.
  - by intros [= <-].
  - rewrite run_cons. destruct (run_call c m) as [m1|] eqn:Hcall; simpl; [|done].
    intros Hrest Hbound. eapply IH; [exact Hrest|]. by eapply run_call_keeps_wildcard.
Qed.

(** A pattern with the marker that a setup registers has its flag and its
    methods in the tree the setup produces. *)
Lemma run_registers_keys (setup : list (Setup H)) pattern methods :
  registers setup pattern methods →
  ∀ m m' ks M,
  run setup m = Some m' →
  marker_keys (strings.Split (strings.Trim pattern "/") "/") = Some ks →
  M ∈ strings.ToUpper <$> effective_methods methods →
  wildcard_bound (root m') ks M.
Proof.
  induction 1 as [pattern handler methods rest|body rest pattern methods Hbody IH
                 |call rest pattern methods Hrest IH];
    intros m m' ks M Hrun Hks HM; rewrite run_cons in Hrun.
  - simpl in Hrun.
    destruct (Handle m pattern handler methods) as [m1|] eqn:Hhandle;
      simpl in Hrun; [|done].
    eapply run_keeps_wildcard; [exact Hrun|].
    rewrite Handle_effective in Hhandle. by eapply addRoutes_marks.
  - rewrite run_call_group in Hrun. unfold Group in Hrun.
    destruct (run body _) as [sub|] eqn:Hsub; simpl in Hrun; [|done].
    eapply run_keeps_wildcard; [exact Hrun|]. simpl. by eapply IH.
  - destruct (run_call call m) as [m1|] eqn:Hcall; simpl in Hrun; [|done].
    by eapply IH.
Qed.

Lemma addRoutes_flag_sound methods :
  ∀ m m' segments h (P : list (string * string) → Prop),
  (∀ ks n, node_by_keys (root m) ks = Some n → isWildcard n = true → P ks) →
  addRoutes m segments methods h = Some m' →
  ∀ ks n, node_by_keys (root m') ks = Some n → isWildcard n = true →
    P ks ∨ marker_keys segments = Some ks.
Proof.
  induction methods as [|x methods IH]; intros m m' segments h P Hinv; cbn [addRoutes].
  - intros [= <-] ks n Hn Hw. left. eauto.
  - unfold addRoute.
    destruct (addRoute_from _ _ _ _ _) as [[t1 cache1]|] eqn:Hadd; simpl; [|done].
    intros Hrest ks n Hn Hw.
    pose proof (addRoute_from_flag_sound _ _ _ _ _ _ _ P Hinv Hadd) as Hinv1.
    destruct (IH (mkMux t1 (NotFound m) (MethodNotAllowed m) (Options m)
                        (middlewares m) cache1) _ _ _
                 (λ ks, P ks ∨ marker_keys segments = Some ks)
                 Hinv1 Hrest ks n Hn Hw) as [[?|?]|?]; auto.
Qed.

Lemma registers_head (call : Setup H) (calls : list (Setup H)) pattern methods :
  registers [call] pattern methods → registers (call :: calls) pattern methods.
Proof.
  inversion 1 as [| |? ? ? ? Hnil]; subst.
  - constructor.
  - by constructor.
  - inversion Hnil.
Qed.

(** Flags over a list of calls, given the same for each call. *)
Lemma run_flag_sound_with (calls : list (Setup H)) :
  Forall (λ call, ∀ m m' (P : list (string * string) → Prop),
    (∀ ks n, node_by_keys (root m) ks = Some n → isWildcard n = true → P ks) →
    run_call call m = Some m' →
    ∀ ks n, node_by_keys (root m') ks = Some n → isWildcard n = true →
      P ks ∨ ∃ pattern methods, registers [call] pattern methods ∧
        marker_keys (strings.Split (strings.Trim pattern "/") "/") = Some ks) calls →
  ∀ m m' (P : list (string * string) → Prop),
  (∀ ks n, node_by_keys (root m) ks = Some n → isWildcard n = true → P ks) →
  run calls m = Some m' →
  ∀ ks n, node_by_keys (root m') ks = Some n → isWildcard n = true →
    P ks ∨ ∃ pattern methods, registers calls pattern methods ∧
      marker_keys (strings.Split (strings.Trim pattern "/") "/") = Some ks.
Proof.
  induction calls as [|c cs IH]; intros Hcalls m m' P Hinv.
  - intros [= <-] ks n Hn Hw. left. eauto.
  - apply Forall_cons in Hcalls as [Hc Hcalls]. rewrite run_cons.
    destruct (run_call c m) as [m1|] eqn:Hcall; simpl; [|done].
    intros Hrest ks n Hn Hw.
    destruct (IH Hcalls m1 m' _ (Hc m m1 P Hinv Hcall) Hrest ks n Hn Hw)
      as [[?|(pattern & methods & Hreg & Hmk)]|(pattern & methods & Hreg & Hmk)];
      [by left|right..].
    + exists pattern, methods. split; [|done]. by apply registers_head.
    + exists pattern, methods. split; [|done]. by apply registers_later.
Qed.

Lemma run_call_flag_sound (call : Setup H) :
  ∀ m m' (P : list (string * string) → Prop),
  (∀ ks n, node_by_keys (root m) ks = Some n → isWildcard n = true → P ks) →
  run_call call m = Some m' →
  ∀ ks n, node_by_keys (root m') ks = Some n → isWildcard n = true →
    P ks ∨ ∃ pattern methods, registers [call] pattern methods ∧
      marker_keys (strings.Split (strings.Trim pattern "/") "/") = Some ks.
Proof.
  induction call as [h|h|h|mw|pat h methods|body IH] using Setup_nested_ind;
    intros m m' P Hinv;
    try (intros [= <-] ks n Hn Hw; left; by eapply Hinv).
  - simpl. rewrite Handle_effective. intros Hadd ks n Hn Hw.
    destruct (addRoutes_flag_sound _ _ _ _ _ P Hinv Hadd ks n Hn Hw) as [?|?];
      [by left|right].
    exists pat, methods. split; [constructor|done].
  - rewrite run_call_group. unfold Group.
    destruct (run body _) as [sub|] eqn:Hrun; simpl; [|done].
    intros [= <-] ks n Hn Hw. simpl in Hn.
    destruct (run_flag_sound_with body IH
                (mkMux (root m) None None None (middlewares m) ∅) _ P Hinv Hrun
                ks n Hn Hw)
      as [?|(pattern & methods & Hreg & Hmk)]; [by left|right].
    exists pattern, methods. split; [|done]. by constructor.
Qed.

Lemma run_flag_sound (calls : list (Setup H)) :
  ∀ m m' (P : list (string * string) → Prop),
  (∀ ks n, node_by_keys (root m) ks = Some n → isWildcard n = true → P ks) →
  run calls m = Some m' →
  ∀ ks n, node_by_keys (root m') ks = Some n → isWildcard n = true →
    P ks ∨ ∃ pattern methods, registers calls pattern methods ∧
      marker_keys (strings.Split (strings.Trim pattern "/") "/") = Some ks.
Proof.
  apply run_flag_sound_with, Forall_forall. intros call _.
  apply run_call_flag_sound.
Qed.

(** C9, as the code has it.  The wildcard-terminal flag marks the
    positions of the registered wildcard patterns, and nothing else: after
    any setup, a node of the tree has the flag set exactly when it is the
    node at the marker of a pattern that the setup registers.  The children
    of one node that have the flag set are as many as the wildcard patterns
    registered one segment below it with different keys. *)
Theorem wildcard_flag_marks_registered_patterns (setup : list (Setup H)) m n :
  run setup New = Some m → node_of (root m) n →
  (isWildcard n = true ↔
   ∃ pattern methods ks,
     registers setup pattern methods ∧
     marker_keys (strings.Split (strings.Trim pattern "/") "/") = Some ks ∧
     node_by_keys (root m) ks = Some n).
Proof.
  intros Hrun Hn. pose proof Hrun as [[Htree _] _]%setup_ok. split.
  - intros Hw. destruct (node_of_keys _ _ Htree Hn) as [ks Hks].
    destruct (run_flag_sound setup New m (λ _, False)) with (ks := ks) (n := n)
      as [[]|(pattern & methods & Hreg & Hmk)]; try done.
    { intros ks0 n0 Hn0 Hw0. destruct ks0; simpl in Hn0; [|done].
      by simplify_eq. }
    by exists pattern, methods, ks.
  - intros (pattern & methods & ks & Hreg & Hmk & Hks).
    assert (∃ M, M ∈ strings.ToUpper <$> effective_methods methods) as [M HM].
    { pose proof (effective_methods_nonempty methods) as Hne.
      destruct (effective_methods methods) as [|x xs]; [done|].
      exists (strings.ToUpper x). by left. }
    destruct (run_registers_keys _ _ _ Hreg _ _ ks M Hrun Hmk HM) as (n' & Hn' & Hw' & _).
    congruence.
Qed.

(** What [prefix_taken] is for: the request gets to the node at the keys,
    and when that node is a wildcard terminal it takes the rest. *)
Lemma prefix_taken_match ks : ∀ t request rest params n,
  tree_ok t → prefix_taken t ks request rest params = true →
  node_by_keys t ks = Some n → isWildcard n = true → rest ≠ [] →
  ∃ ps, findHandler (request ++ rest) t params
        = Some (handlers n, ps, makeAllowedMethodsMap (handlers n)) ∧
        ps !! "..." = Some (strings.Join rest "/").
Proof.
  induction ks as [|k ks IH]; intros t request rest params n Hok Htaken Hn Hw Hrest.
  - destruct request; [|done]. simpl in Hn. simplify_eq.
    destruct rest as [|r rest]; [done|].
    simpl. rewrite Hw. eexists. split; [done|]. apply lookup_insert_eq.
  - destruct request as [|text request]; [done|]. cbn [prefix_taken] in Htaken.
    apply andb_prop in Htaken as [Hnw Htaken]. apply negb_true_iff in Hnw.
    destruct (list_find _ _) as [[i [child p]]|] eqn:Hfind; [|done].
    apply andb_prop in Htaken as [Hbefore Hdeeper].
    apply list_find_Some in Hfind as (Hi & Hkey & _). simpl in Hkey.
    apply tree_ok_inv in Hok as [[_ Hkeys _] Hsub].
    assert (child ∈ children t) as Hchild.
    { apply (attempts_children t text params (child, p)).
      by eapply list_elem_of_lookup_2. }
    cbn [node_by_keys] in Hn.
    destruct (find_child_unique _ _ Hkeys Hchild) as [j Hj]. rewrite Hkey in Hj.
    rewrite Hj in Hn. simpl in Hn.
    destruct (IH child request rest p n) as (ps & Hps & Hcap); try done.
    { eapply Forall_forall; [exact Hsub|done]. }
    exists ps. split; [|done].
    change ((text :: request) ++ rest)%list with (text :: (request ++ rest))%list.
    rewrite findHandler_attempts by done.
    assert (attempts t text params
            = (take i (attempts t text params)
                 ++ (child, p) :: drop (S i) (attempts t text params))%list) as ->.
    { by rewrite <- drop_S, take_drop. }
    rewrite first_hit_app.
    assert (first_hit (λ a, findHandler (request ++ rest) a.1 a.2)
              (take i (attempts t text params)) = None) as ->.
    { apply first_hit_None. intros a Ha.
      eapply forallb_forall in Hbefore; [|by apply list_elem_of_In].
      revert Hbefore.
      destruct (findHandler (request ++ rest) a.1 a.2); [intros [=]|done]. }
    simpl. by rewrite Hps.
Qed.

(** For a prefix of non-empty literal segments the condition comes down to
    this: no node above the node of the prefix is a wildcard terminal. *)
Lemma literal_prefix_taken prefix : ∀ t rest params,
  tree_ok t → Forall literal_segment prefix →
  (∀ (depth : nat) n', (depth < length prefix)%nat →
     node_at t (take depth prefix) = Some n' → isWildcard n' = false) →
  is_Some (node_at t prefix) →
  prefix_taken t (segment_key <$> prefix) prefix rest params = true.
Proof.
  induction prefix as [|seg prefix IH]; intros t rest params Hok Hlit Habove Hat;
    [done|].
  apply Forall_cons in Hlit as [(Hseg & Hcolon & _) Hlit].
  rewrite fmap_cons, (segment_key_literal seg Hcolon). cbn [prefix_taken].
  rewrite (Habove 0%nat t) by (simpl; lia || done). cbn [negb andb].
  destruct Hat as [n Hn]. cbn [node_at] in Hn.
  destruct (literal_child t seg) as [c|] eqn:Hc; simpl in Hn; [|done].
  pose proof Hc as [i Hfind]%literal_child_Some.
  pose proof Hfind as (Hi & Hk & _)%find_child_Some.
  injection Hk as Hcs Hcp.
  assert (∃ tl, List.filter (λ child, String.eqb (segment child) seg) (children t)
                = c :: tl) as [tl Hfilter].
  { destruct (List.filter _ (children t)) as [|x tl] eqn:Hf.
    - assert (In c []) as []. rewrite <- Hf. apply filter_In. split.
      + apply list_elem_of_In. by eapply list_elem_of_lookup_2.
      + by rewrite Hcs, String.eqb_refl.
    - exists tl. f_equal.
      assert (In x (x :: tl)) as Hx by (by left).
      rewrite <- Hf in Hx. apply filter_In in Hx as [Hx Hxs].
      apply String.eqb_eq in Hxs.
      apply list_elem_of_In, list_elem_of_lookup in Hx as [j Hj].
      destruct (decide (j = i)) as [->|Hji]; [congruence|].
      by destruct (literal_child_only _ _ _ _ Hok Hseg Hfind j x Hj Hji). }
  unfold attempts at 1. rewrite Hfilter. rewrite fmap_cons. cbn [app list_find].
  rewrite decide_True by (unfold key; simpl; by rewrite Hcs, Hcp).
  cbn [take forallb andb].
  apply tree_ok_inv in Hok as [_ Hsub].
  apply IH; [|done| |by exists n].
  - eapply Forall_forall; [exact Hsub|]. by eapply list_elem_of_lookup_2.
  - intros depth n' Hdepth Hn'. apply (Habove (S depth) n'); [simpl; lia|].
    cbn [take node_at]. by rewrite Hc.
Qed.

(** C2, as the code has it.  Take a pattern with the wildcard marker that
    is registered for a method somewhere in the setup, and a path whose
    first segments are taken, one by one, by the nodes of the segments
    before the marker, followed by one or more segments.  A request with
    the method is dispatched to the handler bound at the node of the
    marker, and the value under the key "..." is the remaining segments
    joined by "/" -- provided that on the way no node is a wildcard
    terminal itself and no child that [findHandler] enters before the
    pattern's own child has a match for what is left of the path.  The
    methods a pattern is registered for are those [Handle] binds: all of
    them when none is given, and HEAD with GET. *)
Theorem wildcard_captures_remainder (setup : list (Setup H)) m
    (pattern : string) (methods : list string) (M path : string)
    (ks : list (string * string)) (request rest : list string) :
  run setup New = Some m →
  registers setup pattern methods →
  M ∈ strings.ToUpper <$> effective_methods methods →
  marker_keys (strings.Split (strings.Trim pattern "/") "/") = Some ks →
  strings.Split (strings.Trim path "/") "/" = (request ++ rest)%list →
  rest ≠ [] →
  prefix_taken (root m) ks request rest ∅ = true →
  ∃ n h ps, node_by_keys (root m) ks = Some n ∧ handlers n !! M = Some h ∧
    ServeHTTP m M path = Dispatch h ps ∧
    ps !! "..." = Some (strings.Join rest "/").
Proof.
  intros Hrun Hreg HM Hks Hpath Hrest Htaken.
  pose proof Hrun as [[Htree _] _]%setup_ok.
  destruct (run_registers_keys _ _ _ Hreg _ _ ks M Hrun Hks HM) as (n & Hn & Hw & [h Hh]).
  destruct (prefix_taken_match ks (root m) request rest ∅ n) as (ps & Hps & Hcap);
    try done.
  exists n, h, ps. split_and!; try done.
  by rewrite ServeHTTP_cases, Hpath, Hps, Hh.
Qed.

End wildcard_claims.

(** ** The fallback handlers and the decorator chain *)

Section fallbacks.
Context {H Regexp : Type} `{!RegexpEngine Regexp} `{!UnicodeTables} `{MapRange} `{DefaultHandlers H}.
Implicit Types (t node : routeTree H Regexp) (m : Mux H Regexp) (h : H).

(** C10.  The fallback handlers run inside the router's decorator chain as
    it is at serving time.  Every request to a router that has been set up
    either is dispatched to the handler bound to its method at the matched
    node, or ends in a fallback: not-found when no node matches the path,
    and when the method is not bound at the matched node, preflight for
    OPTIONS and method-not-allowed for any other method.  The handler that
    a fallback invokes is [d1 (d2 (... (dn fallback)))] for the decorators
    [d1, ..., dn] of the router.  That is how the decorators run around a
    dispatched handler too: a handler that [Handle] registers on the
    router is dispatched as [d1 (d2 (... (dn handler)))]. *)
Theorem fallbacks_are_decorated (setup : list (Setup H)) m (method path : string) :
  run setup New = Some m →
  (∃ nf na op,
     NotFound m = Some nf ∧ MethodNotAllowed m = Some na ∧ Options m = Some op ∧
     match findHandler (strings.Split (strings.Trim path "/") "/") (root m) ∅ with
     | None =>
         ServeHTTP m method path
         = NotFoundResponse (foldr (λ d inner, d inner) nf (middlewares m))
     | Some (hs, ps, _) =>
         match hs !! method with
         | Some h => ServeHTTP m method path = Dispatch h ps
         | None =>
             ∃ allow,
               ServeHTTP m method path =
               if String.eqb method MethodOptions
               then Preflight allow
                      (foldr (λ d inner, d inner) op (middlewares m))
               else MethodNotAllowedResponse allow
                      (foldr (λ d inner, d inner) na (middlewares m))
         end
     end) ∧
  (∀ (pattern : string) h (methods : list string) m' (given route : string),
     Handle m pattern h methods = Some m' →
     given ∈ methods →
     Forall literal_segment (strings.Split (strings.Trim pattern "/") "/") →
     (∀ k n', (k < length (strings.Split (strings.Trim pattern "/") "/"))%nat →
        node_at (root m') (take k (strings.Split (strings.Trim pattern "/") "/"))
          = Some n' →
        isWildcard n' = false) →
     strings.Split (strings.Trim route "/") "/"
       = strings.Split (strings.Trim pattern "/") "/" →
     middlewares m' = middlewares m ∧
     ServeHTTP m' (strings.ToUpper given) route
     = Dispatch (foldr (λ d inner, d inner) h (middlewares m)) ∅).
Proof.
  intros [[Htree Hcache] ([nf Hnf] & [na Hna] & [op Hop])]%setup_ok. split.
  - exists nf, na, op. split_and!; [done..|].
    rewrite ServeHTTP_cases.
    destruct (findHandler _ _ _) as [[[hs ps] al]|] eqn:Hfound.
    + destruct (hs !! method) as [h|]; [done|].
      pose proof (findHandler_bound _ _ _ _ _ _ Htree Hfound) as Hne.
      destruct (decide (hs = ∅)) as [?|_]; [done|]. simpl. eexists.
      destruct (String.eqb method MethodOptions).
      * rewrite Hop. simpl. by rewrite wrap_foldr.
      * rewrite Hna. simpl. by rewrite wrap_foldr.
    + rewrite Hnf. simpl. by rewrite wrap_foldr.
  - intros pattern h methods m' given route Hhandle Hgiven Hlit Habove Hroute.
    pose proof Hhandle as (_ & _ & _ & _ & Hmw)%Handle_ok; [|done].
    split; [done|]. rewrite <- wrap_foldr.
    eapply Handle_literal_dispatch; try done.
    apply list_elem_of_fmap_2. by apply effective_methods_given.
Qed.

End fallbacks.

(** ** Wildcard patterns at the edges *)

Section wildcard_edges.
Context {H Regexp : Type} `{!RegexpEngine Regexp} `{!UnicodeTables} `{MapRange} `{DefaultHandlers H}.
Implicit Types (t node : routeTree H Regexp) (m : Mux H Regexp) (h : H).




(** X18.  A wildcard registered at the root takes every request: whatever
    the path, a request with the method is dispatched, and the value under
    "..." is the path without the slashes around it. *)
Theorem root_wildcard_takes_everything (setup : list (Setup H)) m
    (pattern : string) (methods ignored : list string) (M path : string) :
  run setup New = Some m →
  registers setup pattern methods →
  M ∈ strings.ToUpper <$> effective_methods methods →
  strings.Split (strings.Trim pattern "/") "/" = "..." :: ignored →
  ∃ h, ServeHTTP m M path = Dispatch h {["..." := strings.Trim path "/"]}.
Proof.
  intros Hrun Hreg HM Hpattern.
  eapply (run_registers_keys _ _ _ Hreg _ _ [] M) in Hrun
    as (n & [= <-] & Hw & [h Hh]); [|by rewrite Hpattern|done].
  exists h. rewrite ServeHTTP_cases.
  pose proof (Join_Split (strings.Trim path "/") "/") as Hjoin.
  destruct (strings.Split (strings.Trim path "/") "/") as [|seg rest] eqn:Hsegs.
  { by apply Split_nonempty in Hsegs. }
  cbn [findHandler]. rewrite Hw, Hh. by rewrite Hjoin.
Qed.

End wildcard_edges.

(** * Concrete routers *)

Import Demo.

(** ** The pattern engine of the examples *)

Example regexp_unanchored_600 :
  (λ rx, MatchString rx "600") <$> MustCompile "[0-9]{2}" = Some true.
Proof. vm_compute. reflexivity. Qed.

Example regexp_anchored_600 :
  (λ rx, MatchString rx "600") <$> MustCompile "^[0-9]{2}$" = Some false.
Proof. vm_compute. reflexivity. Qed.

Example regexp_anchored_60 :
  (λ rx, MatchString rx "60") <$> MustCompile "^[0-9]{2}$" = Some true.
Proof. vm_compute. reflexivity. Qed.

Example regexp_letters :
  (λ rx, (MatchString rx "beatles", MatchString rx "9x")) <$> MustCompile "^[a-z].+$"
  = Some (true, false).
Proof. vm_compute. reflexivity. Qed.


(** ** Paths and patterns as the router splits them *)

Example root_path_segments :
  strings.Split (strings.Trim "/" "/") "/" = [EmptyString].
Proof. reflexivity. Qed.

Example path_segments :
  strings.Split (strings.Trim "//prefix/a//b/" "/") "/"
  = ["prefix"; "a"; EmptyString; "b"].
Proof. reflexivity. Qed.

Example constrained_segment_parts :
  strings.Cut (strings.TrimPrefix ":era|^[0-9]{2}$" ":") "|"
  = ("era", "^[0-9]{2}$", true).
Proof. reflexivity. Qed.

Example plain_parameter_parts :
  strings.Cut (strings.TrimPrefix ":era" ":") "|" = ("era", EmptyString, false).
Proof. reflexivity. Qed.

Example method_upper : strings.ToUpper "get" = "GET".
Proof. reflexivity. Qed.

(** ** The scenarios of the test suite *)

Example simple_path_match :
  ServeHTTP (built [CallHandle "/one" "h" ["GET"]]) "GET" "/one" = Dispatch "h" ∅.
Proof. vm_compute. reflexivity. Qed.

Example wildcard_match_scenario :
  ServeHTTP (built [CallHandle "/prefix/..." "h" ["GET"]]) "GET" "/prefix/anything/else"
  = Dispatch "h" {["..." := "anything/else"]}.
Proof. vm_compute. reflexivity. Qed.

Example path_parameters_match :
  ServeHTTP (built [CallHandle "/path-params/:era/:group/:member" "h" ["GET"]])
            "GET" "/path-params/60/beatles/lennon"
  = Dispatch "h" (<["era" := "60"]> (<["group" := "beatles"]> {["member" := "lennon"]})).
Proof. vm_compute. reflexivity. Qed.

Example regexp_pattern_match :
  ServeHTTP (built [CallHandle "/path-params/:era|^[0-9]{2}$/:group|^[a-z].+$" "h" ["GET"]])
            "GET" "/path-params/60/beatles"
  = Dispatch "h" (<["era" := "60"]> {["group" := "beatles"]}).
Proof. vm_compute. reflexivity. Qed.

Example nested_group_middleware :
  ServeHTTP (built [CallUse [tag "1"];
                    CallGroup [CallUse [tag "2"];
                               CallGroup [CallUse [tag "3"];
                                          CallHandle "/nested/foo" "h" ["GET"]]]])
            "GET" "/nested/foo"
  = Dispatch "1(2(3(h)))" ∅.
Proof. vm_compute. reflexivity. Qed.

Example get_implies_head :
  ServeHTTP (built [CallHandle "/one" "h" ["GET"]]) "HEAD" "/one" = Dispatch "h" ∅.
Proof. vm_compute. reflexivity. Qed.

Example decorated_not_found :
  ServeHTTP (built [CallUse [tag "1"; tag "2"]; CallHandle "/" "h" ["GET"]])
            "GET" "/notfound"
  = NotFoundResponse "1(2(404))".
Proof. vm_compute. reflexivity. Qed.

Example custom_method_not_allowed :
  ServeHTTP (built [SetMethodNotAllowed "custom"; CallUse [tag "1"];
                    CallHandle "/" "h" ["GET"]])
            "POST" "/"
  = MethodNotAllowedResponse "GET, HEAD, OPTIONS" "1(custom)".
Proof. vm_compute. reflexivity. Qed.

Example unanchored_constraint_600 :
  ServeHTTP (built [CallHandle "/path/:n|[0-9]{2}" "h" ["GET"]]) "GET" "/path/600"
  = Dispatch "h" {["n" := "600"]}.
Proof. vm_compute. reflexivity. Qed.

Example anchored_constraint_600 :
  ServeHTTP (built [CallHandle "/path/:n|^[0-9]{2}$" "h" ["GET"]]) "GET" "/path/600"
  = NotFoundResponse "404".
Proof. vm_compute. reflexivity. Qed.

(** ** Literal and parameter children on an empty segment *)

(** C1 (a defect of the code).  Parameter children are stored with the
    empty string as their segment text, and the literal loop of
    [findHandler] compares only the segment text.  For an empty request
    segment (the path "/") the loop therefore takes a parameter child for a
    literal match.  With [/:x] registered before [/], the request [GET /]
    is dispatched to the handler of [/:x], with nothing captured, although
    the literal child for the empty text has a matching subtree of its own.
    On a non-empty segment the literal child does come first. *)
Theorem parameter_child_taken_for_literal :
  let setup := [CallHandle "/:x" "param" ["GET"]; CallHandle "/" "literal" ["GET"]] in
  strings.Split (strings.Trim "/" "/") "/" = [EmptyString] ∧
  key <$> children (root (built setup))
    = [(EmptyString, "x"); (EmptyString, EmptyString)] ∧
  (literal_child (root (built setup)) EmptyString
     ≫= λ l, (λ r, r.1.1 !! "GET") <$> findHandler [] l ∅) = Some (Some "literal") ∧
  ServeHTTP (built setup) "GET" "/" = Dispatch "param" ∅ ∧
  ServeHTTP (built [CallHandle "/:x" "param" ["GET"]; CallHandle "/a" "literal" ["GET"]])
            "GET" "/a" = Dispatch "literal" ∅.
Proof. split_and!; vm_compute; reflexivity. Qed.

(** C5 (a defect of the code).  The constraint itself is checked with
    search semantics, but on an empty request segment a constrained
    parameter child is entered through the literal loop, where no constraint
    is checked: [/:n|^[0-9]{2}$] matches the path [/], and
    [/a/:n|^[0-9]{2}$/b] matches [/a//b], although the pattern finds no
    match in the empty string. *)
Theorem constraint_skipped_on_empty_segment :
  (λ rx, MatchString rx EmptyString) <$> MustCompile "^[0-9]{2}$" = Some false ∧
  ServeHTTP (built [CallHandle "/:n|^[0-9]{2}$" "h" ["GET"]]) "GET" "/"
    = Dispatch "h" ∅ ∧
  ServeHTTP (built [CallHandle "/a/:n|^[0-9]{2}$/b" "h" ["GET"]]) "GET" "/a//b"
    = Dispatch "h" ∅ ∧
  ServeHTTP (built [CallHandle "/a/:n|^[0-9]{2}$/b" "h" ["GET"]]) "GET" "/a/x/b"
    = NotFoundResponse "404".
Proof. split_and!; vm_compute; reflexivity. Qed.

(** ** Counterexamples *)

(** C4 fails as stated: a second registration of the same parameter
    position with another constraint replaces the constraint of the node. *)
Lemma later_constraint_replaces_earlier :
  let m1 := built [CallHandle "/:id|^a$" "h" ["GET"]] in
  let m2 := built [CallHandle "/:id|^a$" "h" ["GET"];
                   CallHandle "/:id|^b$" "h" ["POST"]] in
  key <$> children (root m1) = [(EmptyString, "id")] ∧
  key <$> children (root m2) = [(EmptyString, "id")] ∧
  rxPattern <$> children (root m1) = [MustCompile "^a$"] ∧
  rxPattern <$> children (root m2) = [MustCompile "^b$"] ∧
  MustCompile "^b$" ≠ MustCompile "^a$" ∧
  ServeHTTP m1 "GET" "/a" = Dispatch "h" {["id" := "a"]} ∧
  ServeHTTP m2 "GET" "/a" = NotFoundResponse "404" ∧
  ServeHTTP m2 "GET" "/b" = Dispatch "h" {["id" := "b"]}.
Proof.
  split_and!; try (vm_compute; reflexivity).
  vm_compute. discriminate.
Qed.

(** C6 fails as stated: when OPTIONS is bound at the matched node, an
    OPTIONS request is dispatched to the bound handler and the router's
    preflight handler is not invoked. *)
Lemma bound_OPTIONS_is_dispatched :
  let m := built [CallHandle "/x" "h" ["GET"; "OPTIONS"]] in
  ServeHTTP m "OPTIONS" "/x" = Dispatch "h" ∅ ∧
  ¬ ∃ allow h, ServeHTTP m "OPTIONS" "/x" = Preflight allow h.
Proof.
  split; [vm_compute; reflexivity|].
  intros (allow & h & Hh). vm_compute in Hh. discriminate Hh.
Qed.

(** C9 fails as stated: after [/a/...] and [/b/...] the root has two
    children with the wildcard-terminal flag set. *)
Lemma two_wildcard_children :
  let m := built [CallHandle "/a/..." "ha" ["GET"]; CallHandle "/b/..." "hb" ["GET"]] in
  node_of (root m) (root m) ∧
  isWildcard <$> children (root m) = [true; true] ∧
  ¬ one_wildcard_child (root m).
Proof.
  intros m.
  assert (isWildcard <$> children (root m) = [true; true]) as Hw
    by (vm_compute; reflexivity).
  split_and!; [apply node_here | done |].
  unfold one_wildcard_child.
  destruct (children (root m)) as [|c1 [|c2 [|c3 cs]]]; try discriminate Hw.
  injection Hw as Hw1 Hw2. intros Hone.
  by specialize (Hone 0%nat 1%nat c1 c2 eq_refl eq_refl Hw1 Hw2).
Qed.

(** ** The theorems at concrete routers *)

Lemma ServeHTTP_total_witness :
  let setup := [CallHandle "/one" "h" ["GET"]] in
  run setup New = Some (built setup) ∧
  let found :=
    findHandler (strings.Split (strings.Trim "/one" "/") "/") (root (built setup)) ∅ in
  match ServeHTTP (built setup) "POST" "/one" with
  | Dispatch h ctx =>
      ∃ hs al, found = Some (hs, ctx, al) ∧ hs !! "POST" = Some h
  | NotFoundResponse h =>
      found = None ∧ Some h = wrap (built setup) <$> NotFound (built setup)
  | MethodNotAllowedResponse allow h =>
      "POST" ≠ MethodOptions ∧
      Some h = wrap (built setup) <$> MethodNotAllowed (built setup) ∧
      ∃ hs ps al, found = Some (hs, ps, al) ∧ hs ≠ ∅ ∧ hs !! "POST" = None
  | Preflight allow h =>
      "POST" = MethodOptions ∧
      Some h = wrap (built setup) <$> Options (built setup) ∧
      ∃ hs ps al, found = Some (hs, ps, al) ∧ hs ≠ ∅ ∧ hs !! "POST" = None
  | NilHandlerPanic => False
  end.
Proof.
  intros setup. split; [vm_compute; reflexivity|].
  apply (ServeHTTP_total setup (built setup) "POST" "/one").
  vm_compute; reflexivity.
Defined.

Lemma Allow_lists_bound_methods_witness :
  let setup := [CallHandle "/one" "h" ["GET"]] in
  let hs : gmap string string := <["GET" := "h"]> {["HEAD" := "h"]} in
  run setup New = Some (built setup) ∧
  findHandler (strings.Split (strings.Trim "/one" "/") "/") (root (built setup)) ∅
    = Some (hs, ∅, makeAllowedMethodsMap hs) ∧
  hs !! "POST" = None ∧
  ∃ bound allow h,
    bound ≡ₚ (map_to_list hs).*1 ∧
    allow = strings.Join (bound ++ [MethodOptions]) ", " ∧
    (ServeHTTP (built setup) "POST" "/one" = MethodNotAllowedResponse allow h ∨
     ServeHTTP (built setup) "POST" "/one" = Preflight allow h).
Proof.
  intros setup hs. split_and!; [vm_compute; reflexivity..|].
  apply (Allow_lists_bound_methods setup (built setup) "POST" "/one"
           hs ∅ (makeAllowedMethodsMap hs)); vm_compute; reflexivity.
Defined.

Lemma OPTIONS_is_dispatched_or_preflight_witness :
  let setup := [CallHandle "/one" "h" ["GET"]] in
  let hs : gmap string string := <["GET" := "h"]> {["HEAD" := "h"]} in
  run setup New = Some (built setup) ∧
  findHandler (strings.Split (strings.Trim "/one" "/") "/") (root (built setup)) ∅
    = Some (hs, ∅, makeAllowedMethodsMap hs) ∧
  match hs !! MethodOptions with
  | Some h => ServeHTTP (built setup) MethodOptions "/one" = Dispatch h ∅
  | None =>
      ∃ allow op, Options (built setup) = Some op ∧
        ServeHTTP (built setup) MethodOptions "/one"
        = Preflight allow (wrap (built setup) op)
  end.
Proof.
  intros setup hs. split_and!; [vm_compute; reflexivity..|].
  apply (OPTIONS_is_dispatched_or_preflight setup (built setup) "/one"
           hs ∅ (makeAllowedMethodsMap hs)); vm_compute; reflexivity.
Defined.

Lemma constraint_of_latest_registration_witness :
  let t := root (built [CallHandle "/:id|^a$" "h" ["GET"]]) in
  let r := added [":id|^b$"] "POST" "h" t in
  cache_ok (∅ : gmap string regexp.re) ∧
  strings.HasPrefix ":id|^b$" ":" = true ∧
  strings.Cut (strings.TrimPrefix ":id|^b$" ":") "|" = ("id", "^b$", true) ∧
  addRoute_from [":id|^b$"] "POST" "h" t ∅ = Some (r.1, r.2) ∧
  ∃ i c', find_child (children r.1) EmptyString "id" = Some (i, c') ∧
          rxPattern c' = MustCompile "^b$".
Proof.
  intros t r.
  assert (cache_ok (∅ : gmap string regexp.re)) as Hcache.
  { intros src rx Hsrc. by rewrite lookup_empty in Hsrc. }
  split_and!; [done | vm_compute; reflexivity..|].
  apply (constraint_of_latest_registration t ∅ r.2 ":id|^b$" [] "POST" "h" r.1
           "id" "^b$" true); [done | vm_compute; reflexivity..].
Defined.

(** ** Wildcard patterns, flags and fallbacks at concrete routers *)

(** C2 fails as stated, in two ways.  With [/a/...] and [/a/b/...] both
    registered, the path [/a/b/c] is the prefix of the second pattern
    followed by [c], but the node of the first pattern takes it and the
    capture is "b/c".  With [/:a/x] registered before [/:b/...], the path
    [/foo/x] is the prefix of the second pattern followed by [x], but the
    first route matches it and nothing is captured under "...". *)
Lemma another_route_takes_the_path :
  let m := built [CallHandle "/a/..." "ha" ["GET"]; CallHandle "/a/b/..." "hb" ["GET"]] in
  let m2 := built [CallHandle "/:a/x" "ha" ["GET"]; CallHandle "/:b/..." "hb" ["GET"]] in
  ServeHTTP m "GET" "/a/b/c" = Dispatch "ha" {["..." := "b/c"]} ∧
  (¬ ∃ h, ServeHTTP m "GET" "/a/b/c" = Dispatch h {["..." := "c"]}) ∧
  ServeHTTP m2 "GET" "/foo/x" = Dispatch "ha" {["a" := "foo"]} ∧
  (¬ ∃ h ps, ServeHTTP m2 "GET" "/foo/x" = Dispatch h ps ∧ ps !! "..." = Some "x") ∧
  ServeHTTP m2 "GET" "/foo/y" = Dispatch "hb" (<["b" := "foo"]> {["..." := "y"]}).
Proof.
  split_and!; try (vm_compute; reflexivity).
  - intros [h Hh]. vm_compute in Hh. discriminate Hh.
  - intros (h & ps & Hh & Hps). vm_compute in Hh. injection Hh as _ <-.
    vm_compute in Hps. discriminate Hps.
Qed.

(** A decorator added after a route was registered runs around the
    fallbacks from then on, and not around the handler of that route. *)
Example later_decorator_and_earlier_route :
  let m := built [CallHandle "/x" "h" ["GET"]; CallUse [tag "1"]] in
  ServeHTTP m "GET" "/x" = Dispatch "h" ∅ ∧
  ServeHTTP m "GET" "/nope" = NotFoundResponse "1(404)".
Proof. split; vm_compute; reflexivity. Qed.

Lemma wildcard_captures_remainder_witness :
  let setup := [CallHandle "/files/static/x" "s" ["GET"];
                CallGroup [CallUse [tag "auth"];
                           CallHandle "/files/:user/..." "h" []]] in
  let ks := [("files", EmptyString); (EmptyString, "user")] in
  run setup New = Some (built setup) ∧
  registers setup "/files/:user/..." [] ∧
  "DELETE" ∈ strings.ToUpper <$> effective_methods [] ∧
  marker_keys (strings.Split (strings.Trim "/files/:user/..." "/") "/") = Some ks ∧
  strings.Split (strings.Trim "/files/static/a/b" "/") "/"
    = (["files"; "static"] ++ ["a"; "b"])%list ∧
  ["a"; "b"] ≠ [] ∧
  prefix_taken (root (built setup)) ks ["files"; "static"] ["a"; "b"] ∅ = true ∧
  ∃ n h ps, node_by_keys (root (built setup)) ks = Some n ∧
    handlers n !! "DELETE" = Some h ∧
    ServeHTTP (built setup) "DELETE" "/files/static/a/b" = Dispatch h ps ∧
    ps !! "..." = Some (strings.Join ["a"; "b"] "/").
Proof.
  intros setup ks.
  assert (registers setup "/files/:user/..." []) as Hreg.
  { apply registers_later, registers_group, registers_later, registers_here. }
  assert ("DELETE" ∈ strings.ToUpper <$> effective_methods []) as HM.
  { vm_compute. repeat constructor. }
  do 7 (split; [first [assumption | vm_compute; reflexivity | done]|]).
  apply (wildcard_captures_remainder setup (built setup) "/files/:user/..." []
           "DELETE" "/files/static/a/b" ks ["files"; "static"] ["a"; "b"]);
    first [assumption | vm_compute; reflexivity | done].
Defined.

Lemma wildcard_flag_marks_registered_patterns_witness :
  let setup := [CallHandle "/a/..." "ha" ["GET"]; CallHandle "/b/..." "hb" ["GET"];
                CallHandle "/c/d" "hc" ["GET"]] in
  let m := built setup in
  let n := default (root m) (node_by_keys (root m) [("b", EmptyString)]) in
  run setup New = Some m ∧
  node_of (root m) n ∧
  isWildcard n = true ∧
  (isWildcard n = true ↔
   ∃ pattern methods ks,
     registers setup pattern methods ∧
     marker_keys (strings.Split (strings.Trim pattern "/") "/") = Some ks ∧
     node_by_keys (root m) ks = Some n).
Proof.
  intros setup m n.
  assert (node_of (root m) n) as Hn.
  { apply (node_by_keys_node_of [("b", EmptyString)]). vm_compute; reflexivity. }
  do 3 (split; [first [assumption | vm_compute; reflexivity]|]).
  apply (wildcard_flag_marks_registered_patterns setup m n);
    first [assumption | vm_compute; reflexivity].
Defined.

Lemma fallbacks_are_decorated_witness :
  let setup := [CallUse [tag "log"]; CallHandle "/x" "hx" ["GET"]; CallUse [tag "auth"]] in
  let m := built setup in
  run setup New = Some m ∧
  ServeHTTP m "POST" "/nope" = NotFoundResponse "log(auth(404))" ∧
  ServeHTTP m "POST" "/x" ≠ ServeHTTP m "POST" "/nope" ∧
  (∃ nf na op,
     NotFound m = Some nf ∧ MethodNotAllowed m = Some na ∧ Options m = Some op ∧
     match findHandler (strings.Split (strings.Trim "/nope" "/") "/") (root m) ∅ with
     | None =>
         ServeHTTP m "POST" "/nope"
         = NotFoundResponse (foldr (λ d inner, d inner) nf (middlewares m))
     | Some (hs, ps, _) =>
         match hs !! "POST" with
         | Some h => ServeHTTP m "POST" "/nope" = Dispatch h ps
         | None =>
             ∃ allow,
               ServeHTTP m "POST" "/nope" =
               if String.eqb "POST" MethodOptions
               then Preflight allow
                      (foldr (λ d inner, d inner) op (middlewares m))
               else MethodNotAllowedResponse allow
                      (foldr (λ d inner, d inner) na (middlewares m))
         end
     end) ∧
  (∀ (pattern : string) h (methods : list string) m' (given route : string),
     Handle m pattern h methods = Some m' →
     given ∈ methods →
     Forall literal_segment (strings.Split (strings.Trim pattern "/") "/") →
     (∀ k n', (k < length (strings.Split (strings.Trim pattern "/") "/"))%nat →
        node_at (root m') (take k (strings.Split (strings.Trim pattern "/") "/"))
          = Some n' →
        isWildcard n' = false) →
     strings.Split (strings.Trim route "/") "/"
       = strings.Split (strings.Trim pattern "/") "/" →
     middlewares m' = middlewares m ∧
     ServeHTTP m' (strings.ToUpper given) route
     = Dispatch (foldr (λ d inner, d inner) h (middlewares m)) ∅).
Proof.
  intros setup m.
  do 2 (split; [vm_compute; reflexivity|]).
  split; [vm_compute; discriminate|].
  apply (fallbacks_are_decorated setup m "POST" "/nope").
  vm_compute; reflexivity.
Defined.

(** ** The further properties at concrete routers *)


Lemma no_routes_not_found_witness :
  let m : Mux string regexp.re := New in
  children (root m) = [] ∧ isWildcard (root m) = false ∧ NotFound m = Some "404" ∧
  ServeHTTP m "GET" "/x" = NotFoundResponse (wrap m "404").
Proof.
  intros m. split_and!; [done..|].
  apply (no_routes_not_found m "GET" "/x" "404"); done.
Defined.

Lemma Use_keeps_dispatch_witness :
  let m := built [CallHandle "/one" "h" ["GET"]] in
  ServeHTTP m "GET" "/one" = Dispatch "h" ∅ ∧
  ServeHTTP (Use m [tag "log"]) "GET" "/one" = Dispatch "h" ∅.
Proof.
  intros m. split; [vm_compute; reflexivity|].
  apply (Use_keeps_dispatch m [tag "log"] "GET" "/one" "h" ∅).
  vm_compute; reflexivity.
Defined.

Lemma literal_route_round_trip_witness :
  let setup := [CallUse [tag "log"]; CallHandle "/b/c" "h0" ["POST"]] in
  let m := built (setup ++ [CallHandle "/a" "h" ["get"]]) in
  run setup New = Some (built setup) ∧
  Handle (built setup) "/a" "h" ["get"] = Some m ∧
  "get" ∈ ["get"] ∧
  Forall literal_segment (strings.Split (strings.Trim "/a" "/") "/") ∧
  (∀ k n', (k < length (strings.Split (strings.Trim "/a" "/") "/"))%nat →
     node_at (root m) (take k (strings.Split (strings.Trim "/a" "/") "/")) = Some n' →
     isWildcard n' = false) ∧
  strings.Split (strings.Trim "/a/" "/") "/" = strings.Split (strings.Trim "/a" "/") "/" ∧
  ServeHTTP m (strings.ToUpper "get") "/a/" = Dispatch (wrap (built setup) "h") ∅.
Proof.
  intros setup m.
  assert (∀ k n', (k < length (strings.Split (strings.Trim "/a" "/") "/"))%nat →
     node_at (root m) (take k (strings.Split (strings.Trim "/a" "/") "/")) = Some n' →
     isWildcard n' = false) as Habove.
  { assert (isWildcard (root m) = false) as Hroot by (vm_compute; reflexivity).
    intros [|k] n' Hk Hn'; [|simpl in Hk; lia].
    apply (inj Some) in Hn'. by rewrite <- Hn'. }
  assert (Forall literal_segment (strings.Split (strings.Trim "/a" "/") "/")) as Hlit
    by (repeat constructor; done).
  do 6 (split; [first [assumption | vm_compute; reflexivity | by left]|]).
  apply (literal_route_round_trip setup (built setup) m "/a" "h" ["get"] "get" "/a/");
    try done; try (vm_compute; reflexivity). by left.
Defined.




Lemma Handle_binds_its_methods_only_witness :
  let m : Mux string regexp.re := built [CallHandle "/a/:id" "h0" ["GET"; "DELETE"]] in
  let m' := built [CallHandle "/a/:id" "h0" ["GET"; "DELETE"];
                   CallHandle "/a/:id" "h" ["get"]] in
  Handle m "/a/:id" "h" ["get"] = Some m' ∧
  ("GET" ∈ strings.ToUpper <$> effective_methods ["get"] →
   route_handlers (root m') (strings.Split (strings.Trim "/a/:id" "/") "/") !! "GET"
   = Some (wrap m "h")) ∧
  ("GET" ∉ strings.ToUpper <$> effective_methods ["get"] →
   ∀ other, route_handlers (root m') other !! "GET" = route_handlers (root m) other !! "GET").
Proof.
  intros m m'. split; [vm_compute; reflexivity|].
  apply (Handle_binds_its_methods_only m m' "/a/:id" "h" ["get"] "GET").
  vm_compute; reflexivity.
Defined.


Lemma root_wildcard_takes_everything_witness :
  let setup := [CallHandle "/..." "h" ["GET"]] in
  run setup New = Some (built setup) ∧
  registers setup "/..." ["GET"] ∧
  "GET" ∈ strings.ToUpper <$> effective_methods ["GET"] ∧
  strings.Split (strings.Trim "/..." "/") "/" = ["..."] ∧
  ∃ h, ServeHTTP (built setup) "GET" "/a/b/"
       = Dispatch h {["..." := strings.Trim "/a/b/" "/"]}.
Proof.
  intros setup.
  assert (registers setup "/..." ["GET"]) as Hreg by apply registers_here.
  assert ("GET" ∈ strings.ToUpper <$> effective_methods ["GET"]) as HM
    by (vm_compute; repeat constructor).
  do 4 (split; [first [assumption | vm_compute; reflexivity]|]).
  apply (root_wildcard_takes_everything setup (built setup) "/..." ["GET"] []
           "GET" "/a/b/");
    first [assumption | vm_compute; reflexivity | by left].
Defined.

Lemma groups_keep_their_decorators_witness :
  let setup := [CallUse [tag "a"]; CallGroup [CallUse [tag "b"]]; CallUse [tag "c"]] in
  run setup New = Some (built setup) ∧
  middlewares (built setup)
  = (middlewares (New : Mux string regexp.re) ++ top_level_uses setup)%list.
Proof.
  intros setup. split; [vm_compute; reflexivity|].
  apply (groups_keep_their_decorators setup New (built setup)).
  vm_compute; reflexivity.
Defined.


Lemma tree_invariants_witness :
  let setup := [CallHandle "/a/:id" "h" ["GET"]; CallHandle "/a/..." "w" ["GET"]] in
  let n := root (built setup) in
  run setup New = Some (built setup) ∧
  node_of (root (built setup)) n ∧
  (segment n = EmptyString ∨ paramName n = EmptyString) ∧
  NoDup (key <$> children n) ∧
  (isWildcard n = true → handlers n ≠ ∅).
Proof.
  intros setup n. split; [vm_compute; reflexivity|]. split; [apply node_here|].
  apply (tree_invariants setup (built setup) n);
    [vm_compute; reflexivity | apply node_here].
Defined.

Lemma dispatch_needs_upper_case_method_witness :
  let setup := [CallHandle "/one" "h" ["get"]] in
  run setup New = Some (built setup) ∧
  ServeHTTP (built setup) "GET" "/one" = Dispatch "h" ∅ ∧
  ∃ given, "GET" = strings.ToUpper given.
Proof.
  intros setup. do 2 (split; [vm_compute; reflexivity|]).
  apply (dispatch_needs_upper_case_method setup (built setup) "GET" "/one" "h" ∅);
    vm_compute; reflexivity.
Defined.

Lemma other_case_GET_brings_no_HEAD_witness :
  let m : Mux string regexp.re := New in
  let m' := built [CallHandle "/a" "h" ["get"]] in
  Handle m "/a" "h" ["get"] = Some m' ∧
  contains ["get"] MethodGet = false ∧
  MethodGet ∈ (strings.ToUpper <$> ["get"]) ∧
  (MethodHead ∉ strings.ToUpper <$> ["get"]) ∧
  route_handlers (root m') (strings.Split (strings.Trim "/a" "/") "/") !! MethodGet
    = Some (wrap m "h") ∧
  ∀ other, route_handlers (root m') other !! MethodHead
           = route_handlers (root m) other !! MethodHead.
Proof.
  intros m m'.
  assert (MethodGet ∈ strings.ToUpper <$> ["get"]) as Hin by (by left).
  assert (MethodHead ∉ strings.ToUpper <$> ["get"]) as Hout.
  { intros [Heq|Hnil]%elem_of_cons; [discriminate Heq|]. by apply elem_of_nil in Hnil. }
  do 4 (split; [first [assumption | vm_compute; reflexivity]|]).
  apply (other_case_GET_brings_no_HEAD m m' "/a" "h" ["get"]);
    first [assumption | vm_compute; reflexivity].
Defined.

Lemma first_route_answers_its_pattern_witness :
  let setup := [CallUse [tag "log"]] in
  let pattern := "/users/:id|^[0-9]+$/:action" in
  let m := built (setup ++ [CallHandle pattern "h" ["get"]]) in
  let ps : gmap string string := <["id" := "42"]> {["action" := "edit"]} in
  run setup New = Some (built setup) ∧
  children (root (built setup)) = [] ∧ isWildcard (root (built setup)) = false ∧
  Handle (built setup) pattern "h" ["get"] = Some m ∧
  "get" ∈ ["get"] ∧
  captures (Regexp := regexp.re) (strings.Split (strings.Trim pattern "/") "/")
           (strings.Split (strings.Trim "/users/42/edit" "/") "/") ∅ = Some ps ∧
  ServeHTTP m (strings.ToUpper "get") "/users/42/edit"
  = Dispatch (wrap (built setup) "h") ps.
Proof.
  intros setup pattern m ps.
  do 6 (split; [first [assumption | vm_compute; reflexivity | by left]|]).
  apply (first_route_answers_its_pattern setup (built setup) m pattern "h" ["get"]
           "get" "/users/42/edit" ps);
    first [assumption | vm_compute; reflexivity | by left].
Defined.

Lemma bindings_are_never_removed_witness :
  let m := built [CallHandle "/a" "h" ["GET"]] in
  let calls := [CallHandle "/a" "h2" ["GET"]; CallGroup [CallHandle "/a/b" "h3" ["POST"]]] in
  let m' := built ([CallHandle "/a" "h" ["GET"]] ++ calls) in
  run calls m = Some m' ∧
  is_Some (route_handlers (root m) ["a"] !! "HEAD") ∧
  is_Some (route_handlers (root m') ["a"] !! "HEAD").
Proof.
  intros m calls m'.
  assert (is_Some (route_handlers (root m) ["a"] !! "HEAD")) as Hbound
    by (exists "h"; vm_compute; reflexivity).
  do 2 (split; [first [assumption | vm_compute; reflexivity]|]).
  by apply (bindings_are_never_removed calls m m' ["a"] "HEAD");
    first [assumption | vm_compute; reflexivity].
Defined.
